(** * Mask scoring, selection and session bookkeeping of [segmenter.py]

    A shallow embedding of the [Segmenter] class: the geometry metrics and
    the weighted score ([_compute_mask_metrics]), the linear argmax scan
    ([_weighted_mask_selection]), the centroid query over the mask inventory
    ([get_best_point]) and the two-round refinement ([propagate_points]).

    Numbers.  Pixel counts, indices and image dimensions are integers ([Z]).
    The float64 quantities of the source (confidence, perimeter, compactness,
    size penalty, weighted score) are idealised as real numbers ([R]):
    rounding, infinities and NaN are outside the model, and the [-inf] that
    initialises the scan is represented by [None]. *)

From Stdlib Require Import List ZArith Reals Lra Lia Bool Sorted.
From stdpp Require Import base gmap sets list.
Import ListNotations.

(** * Part I: the program *)

(** ** Arrays and indexing *)

(** A binary 2D array, row major. *)
Definition mask := list (list bool).

Definition row_sum (r : list bool) : Z :=
  fold_right (fun (b : bool) acc => ((if b then 1 else 0) + acc)%Z) 0%Z r.

(** [mask.sum()]: the number of true pixels. *)
Definition mask_sum (m : mask) : Z :=
  fold_right (fun r acc => (row_sum r + acc)%Z) 0%Z m.

(** Outcome of code that may raise [IndexError]. *)
Inductive result (A : Type) : Type :=
  | Ok (a : A)
  | IndexError.
Arguments Ok {A} a.
Arguments IndexError {A}.

(** [seq[i]] for a non-negative position, as in [scores[i]] under
    [enumerate]. *)
Definition get_item {A} (l : list A) (i : nat) : result A :=
  match l !! i with
  | Some a => Ok a
  | None => IndexError
  end.

(** [seq[i]] for an arbitrary integer: Python counts a negative index from
    the end and raises outside [-len, len). *)
Definition py_index {A} (l : list A) (i : Z) : result A :=
  let n := Z.of_nat (length l) in
  if (0 <=? i)%Z then get_item l (Z.to_nat i)
  else if (- n <=? i)%Z then get_item l (Z.to_nat (n + i))
  else IndexError.

(** ** Geometry metrics and the weighted score *)

Definition weights := (R * R * R)%type.

(** The default of the [weights] keyword argument. *)
Definition default_weights : weights := (1.0, 0.8, 1.4)%R.

Section Scoring.
Local Open Scope R_scope.

(** [self.height], [self.width] and the external [skimage] primitive. *)
Variables height width : Z.
Variable perimeter : mask -> R.

(** [_compute_mask_metrics], lines 111-163. *)
Definition _compute_mask_metrics (m : mask) (score : R) : R * R * R :=
  let mask_area := mask_sum m in
  let mask_perimeter := perimeter m in
  let raw_compactness :=
    if (0 <? mask_area)%Z then
      let ideal_perimeter := 2 * sqrt (PI * IZR mask_area) in
      if Rgt_dec mask_perimeter 0
      then ideal_perimeter / mask_perimeter
      else 0
    else 0 in
  let compactness := Rmin raw_compactness 1 in
  let total_pixels := (height * width)%Z in
  let normalized_area := IZR mask_area / IZR total_pixels in
  let small_mask_penalty :=
    if Rlt_dec normalized_area 0.001 then normalized_area ^ 4 else 0 in
  let large_mask_penalty :=
    if Rgt_dec normalized_area 0.5 then (normalized_area - 0.4) ^ 4 else 0 in
  let size_penalty :=
    normalized_area + small_mask_penalty + large_mask_penalty in
  (compactness, size_penalty, score).

(** The loop body's [weighted_score], lines 173-180. *)
Definition weighted_score (ws : weights) (m : mask) (score : R) : R :=
  let '(w_s, w_c, w_a) := ws in
  let '(compactness, size_penalty, sam_score) :=
    _compute_mask_metrics m score in
  w_s * sam_score + w_c * ln (1 + compactness) - w_a * size_penalty.

(** [weighted_score > best_score], where [None] stands for [-inf]. *)
Definition exceeds (w : R) (best_score : option R) : bool :=
  match best_score with
  | None => true
  | Some b => if Rgt_dec w b then true else false
  end.

(** The [for i, mask in enumerate(masks)] loop from position [i] on. *)
Fixpoint selection_loop (ws : weights) (scores : list R) (i : nat)
    (masks : list mask) (best_score : option R) (best_index : Z)
    : result Z :=
  match masks with
  | [] => Ok best_index
  | m :: rest =>
      match get_item scores i with
      | IndexError => IndexError
      | Ok s =>
          let w := weighted_score ws m s in
          if exceeds w best_score
          then selection_loop ws scores (S i) rest (Some w) (Z.of_nat i)
          else selection_loop ws scores (S i) rest best_score best_index
      end
  end.

(** [_weighted_mask_selection], lines 165-187.  The [point] and [label]
    keyword arguments are not used by the body. *)
Definition _weighted_mask_selection (masks : list mask) (scores : list R)
    (ws : weights) : result Z :=
  selection_loop ws scores 0 masks None (-1)%Z.

(** ** The refinement round trip *)

Section Refinement.
(** Point prompts, labels and raw logits are opaque to the class. *)
Variables points labels logit : Type.

Record request := Request {
  point_coords : points;
  point_labels : labels;
  mask_input : option logit;
  multimask_output : bool
}.

(** [(masks, scores, logits)]. *)
Definition response := (list mask * list R * list logit)%type.

(** The external predictor, with whatever internal state it keeps. *)
Variable pstate : Type.
Variable predict : pstate -> request -> response * pstate.

(** The predictor's state and the calls made to it so far. *)
Record world := World {
  predictor_state : pstate;
  calls : list request
}.

Definition M (A : Type) : Type := world -> result A * world.

Definition ret {A} (a : A) : M A := fun w => (Ok a, w).

Definition bind {A B} (c : M A) (k : A -> M B) : M B :=
  fun w =>
    match c w with
    | (Ok a, w') => k a w'
    | (IndexError, w') => (IndexError, w')
    end.

Definition lift {A} (r : result A) : M A := fun w => (r, w).

Definition call_predictor (req : request) : M response :=
  fun w =>
    let '(resp, s') := predict (predictor_state w) req in
    (Ok resp, World s' (calls w ++ [req])).

Local Notation "x <- c ;; k" := (bind c (fun x => k))
  (at level 100, c at next level, right associativity).

(** [propagate_points], lines 230-259.  [mask_input[None, :, :]] only
    adds a leading axis of length one to the chosen logit. *)
Definition propagate_points (pts : points) (lbls : labels) : M mask :=
  first <- call_predictor (Request pts lbls None true) ;;
  let '(masks, scores, logits) := first in
  selected_mask <-
    lift (_weighted_mask_selection masks scores default_weights) ;;
  mask_input <- lift (py_index logits selected_mask) ;;
  second <- call_predictor (Request pts lbls (Some mask_input) true) ;;
  let '(masks, scores, logits) := second in
  best <- lift (_weighted_mask_selection masks scores default_weights) ;;
  lift (py_index masks best).

End Refinement.
End Scoring.

Arguments Request {points labels logit}.
Arguments point_coords {points labels logit}.
Arguments point_labels {points labels logit}.
Arguments mask_input {points labels logit}.
Arguments multimask_output {points labels logit}.
Arguments World {points labels logit pstate}.
Arguments predictor_state {points labels logit pstate}.
Arguments calls {points labels logit pstate}.
Arguments propagate_points height width perimeter {points labels logit pstate}.

(** ** The mask inventory and the selection state *)

(** A dict of the generator's output.  [obj_id] is what [id(mask)] returns
    for it: two entries of [self.masks] with the same [obj_id] are the same
    object. *)
Record mask_record := MaskRecord {
  obj_id : positive;
  area : Z;
  segmentation : mask
}.

(** Column positions of the true pixels of row [r], from column [c] on. *)
Fixpoint row_nonzero (r c : Z) (row : list bool) : list (Z * Z) :=
  match row with
  | [] => []
  | b :: bs => (if b then [(r, c)] else []) ++ row_nonzero r (c + 1) bs
  end.

Fixpoint nonzero_from (r : Z) (seg : mask) : list (Z * Z) :=
  match seg with
  | [] => []
  | row :: rows => row_nonzero r 0 row ++ nonzero_from (r + 1) rows
  end.

(** The zipped output of [segmentation.nonzero()]: the (row, column) pairs
    of the true pixels, in row-major order. *)
Definition nonzero (seg : mask) : list (Z * Z) := nonzero_from 0 seg.

Definition sum_Z (l : list Z) : Z := fold_right Z.add 0%Z l.

(** [tuple(map(int, np.mean(indices, axis=0)))]: the column-wise mean,
    truncated towards zero. *)
Definition centroid (indices : list (Z * Z)) : Z * Z :=
  let n := Z.of_nat (length indices) in
  (Z.quot (sum_Z (map fst indices)) n, Z.quot (sum_Z (map snd indices)) n).

(** The [for mask in self.masks] loop of [get_best_point], lines 203-209,
    threading [largest_mask] and [largest_area]. *)
Fixpoint scan_largest (selected_masks : gset positive)
    (masks : list mask_record) (largest_mask : option mask_record)
    (largest_area : Z) : option mask_record * Z :=
  match masks with
  | [] => (largest_mask, largest_area)
  | m :: rest =>
      if decide (obj_id m ∈ selected_masks)
      then scan_largest selected_masks rest largest_mask largest_area
      else if (largest_area <? area m)%Z
      then scan_largest selected_masks rest (Some m) (area m)
      else scan_largest selected_masks rest largest_mask largest_area
  end.

(** The mask the scan settles on: [largest_mask] after the loop. *)
Definition largest_unselected (masks : list mask_record)
    (selected_masks : gset positive) : option mask_record :=
  fst (scan_largest selected_masks masks None 0%Z).

(** [get_best_point], lines 189-228: the returned value and the new
    [self.selected_masks]. *)
Definition get_best_point (masks : list mask_record)
    (selected_masks : gset positive) : option (Z * Z) * gset positive :=
  match largest_unselected masks selected_masks with
  | None => (None, selected_masks)
  | Some largest_mask =>
      let indices := nonzero (segmentation largest_mask) in
      match indices with
      | [] => (None, selected_masks)
      | _ :: _ =>
          (Some (centroid indices),
           selected_masks ∪ {[ obj_id largest_mask ]})
      end
  end.

(** One observed call: the mask a centroid was returned for, if any. *)
Definition offered (masks : list mask_record)
    (selected_masks : gset positive) : option mask_record :=
  match fst (get_best_point masks selected_masks) with
  | Some _ => largest_unselected masks selected_masks
  | None => None
  end.

(** [n] successive calls of [get_best_point] on one session. *)
Fixpoint repeated_calls (n : nat) (masks : list mask_record)
    (selected_masks : gset positive) : list (option mask_record) :=
  match n with
  | O => []
  | S k =>
      offered masks selected_masks
      :: repeated_calls k masks (snd (get_best_point masks selected_masks))
  end.

(** The masks the scan settles on over [n] successive calls, whether or not
    a centroid came back. *)
Fixpoint chosen_over_calls (n : nat) (masks : list mask_record)
    (selected_masks : gset positive) : list (option mask_record) :=
  match n with
  | O => []
  | S k =>
      largest_unselected masks selected_masks
      :: chosen_over_calls k masks (snd (get_best_point masks selected_masks))
  end.

(** Bounding box of a non-empty list of coordinates. *)
Definition min_of (x : Z) (l : list Z) : Z := fold_right Z.min x l.
Definition max_of (x : Z) (l : list Z) : Z := fold_right Z.max x l.

(** [self.selected_masks] after [n] successive calls. *)
Fixpoint selected_after (n : nat) (masks : list mask_record)
    (selected_masks : gset positive) : gset positive :=
  match n with
  | O => selected_masks
  | S k =>
      selected_after k masks (snd (get_best_point masks selected_masks))
  end.

(** The stored masks whose identity is not in the selection state. *)
Definition unselected (masks : list mask_record)
    (selected_masks : gset positive) : list mask_record :=
  filter (fun m => obj_id m ∉ selected_masks) masks.

(** A 2D array of [h] rows of [w] columns each. *)
Definition has_shape (seg : mask) (h w : Z) : Prop :=
  Z.of_nat (length seg) = h /\
  Forall (fun row => Z.of_nat (length row) = w) seg.

(** ** Building the inventory *)

(** The [for mask in masks] loop of [_generate_masks], lines 100-106,
    appending to [filtered_masks].  The quotient [mask_area / image_area]
    is taken in the reals, for an image with at least one pixel. *)
Fixpoint coverage_loop (image_area : Z) (coverage_threshold : R)
    (masks filtered_masks : list mask_record) : list mask_record :=
  match masks with
  | [] => filtered_masks
  | m :: rest =>
      let mask_area := area m in
      if Rlt_dec (IZR mask_area / IZR image_area) coverage_threshold
      then coverage_loop image_area coverage_threshold rest
             (filtered_masks ++ [m])
      else coverage_loop image_area coverage_threshold rest filtered_masks
  end.

(** [_generate_masks], lines 82-109, on the list [generated] that the
    external mask generator returned for the image. *)
Definition _generate_masks (height width : Z)
    (generated : list mask_record) : list mask_record :=
  let image_area := (height * width)%Z in
  let coverage_threshold := 0.95%R in
  coverage_loop image_area coverage_threshold generated [].

(** The masks a trace of calls returned a centroid for, in call order. *)
Definition returned_masks (trace : list (option mask_record))
    : list mask_record :=
  omap (fun offer => offer) trace.

(** ** Sample data *)

(** An [h] by [w] array whose true pixels are the top-left [rows] by [cols]
    rectangle. *)
Definition rect_mask (h w rows cols : nat) : mask :=
  replicate rows (replicate cols true ++ replicate (w - cols) false)
  ++ replicate (h - rows) (replicate w false).

(** Three masks of a 20 by 20 image, of areas 50, 200 and 10. *)
Definition example_inventory : list mask_record :=
  [ MaskRecord 1 50 (rect_mask 20 20 5 10);
    MaskRecord 2 200 (rect_mask 20 20 10 20);
    MaskRecord 3 10 (rect_mask 20 20 2 5) ].

(** A 3 by 3 session whose largest mask claims 9 pixels but has an all-false
    segmentation, next to a sound mask of 4 pixels. *)
Definition degenerate_mask : mask_record :=
  MaskRecord 1 9 (rect_mask 3 3 0 0).

Definition degenerate_inventory : list mask_record :=
  [ degenerate_mask; MaskRecord 2 4 (rect_mask 3 3 2 2) ].

(** A row of width [w] whose first [k] pixels are true. *)
Definition band_row (w k : Z) : list bool :=
  replicate (Z.to_nat k) true ++ replicate (Z.to_nat (w - k)) false.

(** An [h] by [w] array: [full] rows of true pixels, then one row with [k]
    true pixels, then empty rows. *)
Definition band_mask (h w full k : Z) : mask :=
  replicate (Z.to_nat full) (band_row w w)
  ++ [band_row w k]
  ++ replicate (Z.to_nat (h - full - 1)) (band_row w 0).

(** Two masks of a 2000000 by 2000000 image: one pixel short of a
    thousandth of the image, and exactly a thousandth of it. *)
Definition mask_below_threshold : mask :=
  band_mask 2000000 2000000 1999 1999999.

Definition mask_at_threshold : mask :=
  band_mask 2000000 2000000 2000 0.

(** A stand-in for the perimeter primitive: four unit edges per true
    pixel. *)
Definition edge_count (m : mask) : R := IZR (4 * mask_sum m).

(** A stub predictor: counts its calls and answers each with the same two
    candidates. *)
Definition stub_predict (count : nat) (req : request unit unit nat)
    : response nat * nat :=
  (([rect_mask 4 4 2 2; rect_mask 4 4 4 3], [0.9%R; 0.7%R], [10%nat; 11%nat]),
   S count).

(** A 3 by 3 ring: every pixel but the middle one. *)
Definition ring_mask : mask :=
  [ [true; true; true]; [true; false; true]; [true; true; true] ].

(** Two generated masks of a 100 by 100 image: one covering 96% of it and
    one covering 40%. *)
Definition covering_mask : mask_record :=
  MaskRecord 1 9600 (rect_mask 100 100 96 100).

Definition partial_mask : mask_record :=
  MaskRecord 2 4000 (rect_mask 100 100 40 100).

Definition coverage_example : list mask_record :=
  [ covering_mask; partial_mask ].

(** A mask with true pixels whose recorded area is 0. *)
Definition zero_area_inventory : list mask_record :=
  [ MaskRecord 1 0 ring_mask ].

(** Stub predictors counting their calls: one that answers with a single
    candidate, one that returns logits but no masks, and one that has a
    candidate for its first call only. *)
Definition single_predict (count : nat) (req : request unit unit nat)
    : response nat * nat :=
  (([rect_mask 4 4 2 2], [0.9%R], [7%nat]), S count).

Definition no_mask_predict (count : nat) (req : request unit unit nat)
    : response nat * nat :=
  (([], [], [5%nat; 6%nat]), S count).

Definition fading_predict (count : nat) (req : request unit unit nat)
    : response nat * nat :=
  match count with
  | O => (([rect_mask 4 4 2 2], [0.9%R], [7%nat]), S count)
  | S _ => (([], [], []), S count)
  end.

(** ** The geometry metrics in the words of the specification *)

(** Compactness from the true-pixel count and the perimeter: zero for an
    empty mask, zero for a zero perimeter, otherwise the ratio of the
    equal-area disk's perimeter to the mask's, capped at one. *)
Definition spec_compactness (area : Z) (peri : R) : R :=
  if (area =? 0)%Z then 0%R
  else if Req_dec_T peri 0 then 0%R
  else Rmin (2 * sqrt (PI * IZR area) / peri) 1.

Definition spec_normalized_area (area image_height image_width : Z) : R :=
  (IZR area / IZR (image_height * image_width))%R.

(** The base [normalized_area] with the two additive quartic corrections. *)
Definition spec_size_penalty (normalized_area : R) : R :=
  (normalized_area
   + (if Rlt_dec normalized_area 0.001 then normalized_area ^ 4 else 0)
   + (if Rgt_dec normalized_area 0.5
      then (normalized_area - 0.4) ^ 4 else 0))%R.

(** * Part II: properties *)

(** ** Geometry metrics *)

Lemma row_sum_nonneg (r : list bool) : (0 <= row_sum r)%Z.
Proof.
  induction r as [|b r IH]; simpl; [lia|].
  destruct b; lia.
Qed.

Lemma mask_sum_nonneg (m : mask) : (0 <= mask_sum m)%Z.
Proof.
  induction m as [|r m IH]; simpl; [lia|].
  pose proof (row_sum_nonneg r). lia.
Qed.

Section ScoringFacts.
Local Open Scope R_scope.

Variables height width : Z.
Variable perimeter : mask -> R.

Local Abbreviation metrics :=
  (_compute_mask_metrics height width perimeter).
Local Abbreviation wscore := (weighted_score height width perimeter).

(** The score is passed through untouched and the two metrics do not
    depend on it. *)
Lemma metrics_score (m : mask) (s : R) :
  metrics m s = ((metrics m 0).1.1, (metrics m 0).1.2, s).
Proof. reflexivity. Qed.

Lemma normalized_area_nonneg (m : mask) :
  (0 < height * width)%Z ->
  0 <= IZR (mask_sum m) / IZR (height * width).
Proof.
  intros Hpos.
  apply Rmult_le_pos.
  - apply IZR_le, mask_sum_nonneg.
  - left. apply Rinv_0_lt_compat, IZR_lt, Hpos.
Qed.

Lemma compactness_agrees (m : mask) (s : R) :
  0 <= perimeter m ->
  (metrics m s).1.1 = spec_compactness (mask_sum m) (perimeter m).
Proof.
  intros Hper. unfold _compute_mask_metrics, spec_compactness. simpl.
  pose proof (mask_sum_nonneg m) as Hnn.
  destruct (Z.ltb_spec 0 (mask_sum m)) as [Hlt|Hge];
    destruct (Z.eqb_spec (mask_sum m) 0) as [He|Hne]; try lia.
  - destruct (Rgt_dec (perimeter m) 0) as [Hgt|Hngt];
      destruct (Req_dec_T (perimeter m) 0) as [Heq|Hneq].
    + lra.
    + reflexivity.
    + apply Rmin_left. lra.
    + exfalso. apply Hneq. lra.
  - apply Rmin_left. lra.
Qed.

Lemma size_penalty_agrees (m : mask) (s : R) :
  (metrics m s).1.2
  = spec_size_penalty (spec_normalized_area (mask_sum m) height width).
Proof. reflexivity. Qed.

(** C3.  Compactness is 0 for a mask without true pixels, 0 for a mask
    whose perimeter is 0, and otherwise, the perimeter being a length and
    so non-negative, the equal-area disk's perimeter
    [2 * sqrt (PI * area)] over the mask's perimeter, capped at 1; it
    always lies in [0, 1]. *)
Theorem compactness_cases (m : mask) (score : R) :
  let compactness := (metrics m score).1.1 in
  (mask_sum m = 0%Z -> compactness = 0) /\
  (mask_sum m <> 0%Z -> perimeter m = 0 -> compactness = 0) /\
  (mask_sum m <> 0%Z -> 0 <= perimeter m -> perimeter m <> 0 ->
     compactness
     = Rmin (2 * sqrt (PI * IZR (mask_sum m)) / perimeter m) 1) /\
  0 <= compactness <= 1.
Proof.
  intros compactness. subst compactness.
  unfold _compute_mask_metrics. cbn [fst].
  pose proof (mask_sum_nonneg m) as Hnn.
  pose proof (sqrt_pos (PI * IZR (mask_sum m))) as Hsqrt.
  destruct (Z.ltb_spec 0 (mask_sum m)) as [Hpos|Hzero];
    [destruct (Rgt_dec (perimeter m) 0) as [Hgt|Hngt]|].
  - split; [lia|]. split; [lra|]. split; [reflexivity|].
    split; [|apply Rmin_r].
    apply Rmin_glb; [|lra].
    apply Rmult_le_pos; [lra|]. left. apply Rinv_0_lt_compat, Hgt.
  - rewrite Rmin_left by lra.
    split; [reflexivity|]. split; [reflexivity|].
    split; [|lra]. intros _ Hper Hne. exfalso. apply Hne. lra.
  - rewrite Rmin_left by lra.
    split; [reflexivity|]. split; [reflexivity|].
    split; [|lra]. intros Hne. lia.
Qed.

(** C4.  With [normalized_area = area / (height * width)], the size
    penalty is [normalized_area + normalized_area^4] below 0.001, just
    [normalized_area] from 0.001 to 0.5, and
    [normalized_area + (normalized_area - 0.4)^4] above 0.5; on an image
    with at least one pixel it is never negative. *)
Theorem size_penalty_cases (m : mask) (score : R) :
  (0 < height * width)%Z ->
  let normalized_area := IZR (mask_sum m) / IZR (height * width) in
  let size_penalty := (metrics m score).1.2 in
  (normalized_area < 0.001 ->
     size_penalty = normalized_area + normalized_area ^ 4) /\
  (0.001 <= normalized_area <= 0.5 -> size_penalty = normalized_area) /\
  (normalized_area > 0.5 ->
     size_penalty = normalized_area + (normalized_area - 0.4) ^ 4) /\
  0 <= size_penalty.
Proof.
  intros Hpos n sp. subst sp.
  pose proof (normalized_area_nonneg m Hpos) as Hn. fold n in Hn.
  unfold _compute_mask_metrics. cbn [fst snd]. fold n.
  destruct (Rlt_dec n 0.001) as [Hs|Hs];
    destruct (Rgt_dec n 0.5) as [Hl|Hl];
    repeat split; intros; try lra.
  - pose proof (pow_le n 4 Hn). lra.
  - assert (0 <= (n - 0.4) ^ 4) by (apply pow_le; lra). lra.
Qed.

(** C1.  The weighted score is
    [w_score * confidence + w_compact * ln (1 + compactness)
     - w_size * size_penalty]
    with the two geometry metrics as the specification words them, and
    the default weight triple is (1.0, 0.8, 1.4). *)
Theorem weighted_score_formula (m : mask) (confidence : R)
    (w_score w_compact w_size : R) :
  0 <= perimeter m ->
  wscore (w_score, w_compact, w_size) m confidence
  = w_score * confidence
    + w_compact * ln (1 + spec_compactness (mask_sum m) (perimeter m))
    - w_size
      * spec_size_penalty (spec_normalized_area (mask_sum m) height width)
  /\ default_weights = (1, 0.8, 1.4).
Proof.
  intros Hper. split.
  - unfold weighted_score.
    rewrite (metrics_score m confidence).
    rewrite compactness_agrees by assumption.
    rewrite size_penalty_agrees. reflexivity.
  - unfold default_weights. repeat f_equal; lra.
Qed.

(** The quartic corrections are monotone on their own pieces. *)
Lemma spec_size_penalty_small_mono (x y : R) :
  0 <= x <= y -> y < 0.001 ->
  spec_size_penalty x <= spec_size_penalty y.
Proof.
  intros Hxy Hy. unfold spec_size_penalty.
  destruct (Rlt_dec x 0.001); [|lra].
  destruct (Rlt_dec y 0.001); [|lra].
  destruct (Rgt_dec x 0.5); [lra|].
  destruct (Rgt_dec y 0.5); [lra|].
  pose proof (pow_incr x y 4 Hxy). lra.
Qed.

Lemma spec_size_penalty_ge (x : R) : 0 <= x -> x <= spec_size_penalty x.
Proof.
  intros Hx. unfold spec_size_penalty.
  destruct (Rlt_dec x 0.001); destruct (Rgt_dec x 0.5); try lra.
  - pose proof (pow_le x 4 Hx). lra.
  - assert (0 <= (x - 0.4) ^ 4) by (apply pow_le; lra). lra.
Qed.

Lemma spec_size_penalty_large_mono (x y : R) :
  0.001 <= x -> x <= y ->
  spec_size_penalty x <= spec_size_penalty y.
Proof.
  intros Hx Hxy. unfold spec_size_penalty.
  destruct (Rlt_dec x 0.001); [lra|].
  destruct (Rlt_dec y 0.001); [lra|].
  destruct (Rgt_dec x 0.5); destruct (Rgt_dec y 0.5); try lra.
  - assert (0 <= x - 0.4 <= y - 0.4) as H by lra.
    pose proof (pow_incr _ _ 4 H). lra.
  - assert (0 <= (y - 0.4) ^ 4) by (apply pow_le; lra). lra.
Qed.

(** Below the 0.001 threshold the quartic term stays under 10^-12. *)
Lemma spec_size_penalty_small_bound (x : R) :
  0 <= x -> x < 0.001 -> spec_size_penalty x <= x + / 10 ^ 12.
Proof.
  intros Hx Hs. unfold spec_size_penalty.
  destruct (Rlt_dec x 0.001); [|lra].
  destruct (Rgt_dec x 0.5); [lra|].
  assert (0 <= x <= 0.001) as H by lra.
  pose proof (pow_incr _ _ 4 H). lra.
Qed.

(** C5, as amended.  For two masks on one image with at least one pixel,
    a smaller or equal normalized area gives a smaller or equal size
    penalty whenever both normalized areas lie on the same side of 0.001,
    and also across that threshold when the image has at most 10^12
    pixels. *)
Theorem size_penalty_monotone (m1 m2 : mask) (s1 s2 : R) :
  (0 < height * width)%Z ->
  let n1 := IZR (mask_sum m1) / IZR (height * width) in
  let n2 := IZR (mask_sum m2) / IZR (height * width) in
  n1 <= n2 ->
  n2 < 0.001 \/ 0.001 <= n1 \/ (height * width <= 10 ^ 12)%Z ->
  (metrics m1 s1).1.2 <= (metrics m2 s2).1.2.
Proof.
  intros Hpos n1 n2 Hle Hside.
  rewrite !size_penalty_agrees. unfold spec_normalized_area.
  fold n1 n2.
  pose proof (normalized_area_nonneg m1 Hpos) as H1. fold n1 in H1.
  pose proof (normalized_area_nonneg m2 Hpos) as H2. fold n2 in H2.
  destruct (Rlt_dec n2 0.001) as [Hs2|Hs2].
  { apply spec_size_penalty_small_mono; lra. }
  destruct (Rlt_dec n1 0.001) as [Hs1|Hs1].
  2:{ apply spec_size_penalty_large_mono; lra. }
  destruct Hside as [?|[?|Hsmall]]; try lra.
  (* n1 < 0.001 <= n2 on an image of at most 10^12 pixels *)
  set (T := IZR (height * width)) in *.
  assert (0 < T) as HT by (apply (IZR_lt 0); exact Hpos).
  assert (T <= 10 ^ 12) as HT12.
  { unfold T. replace (10 ^ 12) with (IZR (10 ^ 12)).
    - apply IZR_le, Hsmall.
    - simpl. lra. }
  assert (mask_sum m1 + 1 <= mask_sum m2)%Z as Hareas.
  { assert (mask_sum m1 < mask_sum m2)%Z; [|lia].
    apply lt_IZR.
    apply (Rmult_lt_reg_r (/ T)); [apply Rinv_0_lt_compat; exact HT|].
    unfold n1, n2, Rdiv in *. lra. }
  assert (n1 + / T <= n2) as Hgap.
  { unfold n1, n2, Rdiv. fold T.
    apply IZR_le in Hareas. rewrite plus_IZR in Hareas.
    rewrite <- (Rmult_1_l (/ T)) at 2.
    rewrite <- Rmult_plus_distr_r.
    apply Rmult_le_compat_r; [|exact Hareas].
    left. apply Rinv_0_lt_compat, HT. }
  assert (/ 10 ^ 12 <= / T) as Hinv.
  { apply Rinv_le_contravar; assumption. }
  pose proof (spec_size_penalty_small_bound n1 H1 Hs1).
  pose proof (spec_size_penalty_ge n2 H2).
  lra.
Qed.

(** ** The selection scan *)

Lemma exceeds_None (w : R) : exceeds w None = true.
Proof. reflexivity. Qed.

Lemma exceeds_Some_true (w b : R) : exceeds w (Some b) = true <-> w > b.
Proof.
  unfold exceeds. destruct (Rgt_dec w b); split; intros; auto; discriminate.
Qed.

Lemma exceeds_Some_false (w b : R) : exceeds w (Some b) = false <-> w <= b.
Proof.
  unfold exceeds. destruct (Rgt_dec w b); split; intros;
    auto; try discriminate; lra.
Qed.

(** A later, strictly larger score also exceeds what [w] exceeded. *)
Lemma exceeds_trans (w w' : R) (best : option R) :
  exceeds w best = true -> w' > w -> exceeds w' best = true.
Proof.
  destruct best as [b|]; [|reflexivity].
  rewrite !exceeds_Some_true. lra.
Qed.

(** A score that exceeds [best] is strictly above one that does not. *)
Lemma exceeds_separates (w w' : R) (best : option R) :
  exceeds w best = false -> exceeds w' best = true -> w < w'.
Proof.
  destruct best as [b|]; [|discriminate].
  rewrite exceeds_Some_false, exceeds_Some_true. lra.
Qed.

Lemma get_item_lookup {A} (l : list A) (i : nat) (a : A) :
  l !! i = Some a -> get_item l i = Ok a.
Proof. unfold get_item. intros ->. reflexivity. Qed.

(** Normalise a pair of lookups at the head or in the tail of the
    candidates still to be scanned. *)
Ltac at_position Hm Hs :=
  simpl in Hm;
  first [ rewrite Nat.add_0_r in Hs; simplify_eq
        | rewrite Nat.add_succ_r in Hs ].

Section Scan.
Variable ws : weights.
Variable scores : list R.

(** What the scan from position [i] over the remaining [masks] returns:
    the incoming [best_index] when nothing exceeds the incoming best
    score, and otherwise the first position of the largest weighted
    score, which then exceeds the incoming best score. *)
Lemma selection_loop_spec (masks : list mask) :
  forall (i : nat) (best : option R) (best_index : Z),
    length scores = (i + length masks)%nat ->
    exists r,
      selection_loop height width perimeter ws scores i masks
        best best_index = Ok r
      /\ ((r = best_index /\
           forall k m s, masks !! k = Some m ->
             scores !! (i + k)%nat = Some s ->
             exceeds (wscore ws m s) best = false)
          \/
          (exists k m s,
             r = Z.of_nat (i + k) /\
             masks !! k = Some m /\ scores !! (i + k)%nat = Some s /\
             exceeds (wscore ws m s) best = true /\
             (forall k' m' s', masks !! k' = Some m' ->
                scores !! (i + k')%nat = Some s' ->
                wscore ws m' s' <= wscore ws m s) /\
             (forall k' m' s', (k' < k)%nat -> masks !! k' = Some m' ->
                scores !! (i + k')%nat = Some s' ->
                wscore ws m' s' < wscore ws m s))).
Proof.
  induction masks as [|m rest IH]; intros i best bi Hlen.
  - exists bi. split; [reflexivity|]. left. split; [reflexivity|].
    intros k m s Hk. rewrite lookup_nil in Hk. discriminate.
  - simpl in Hlen.
    destruct (lookup_lt_is_Some_2 scores i) as [s Hs]; [lia|].
    cbn [selection_loop]. rewrite (get_item_lookup _ _ _ Hs).
    cbv zeta.
    destruct (exceeds (wscore ws m s) best) eqn:Hex.
    + destruct (IH (S i) (Some (wscore ws m s)) (Z.of_nat i))
        as (r & Hr & Hpost); [lia|].
      exists r. split; [exact Hr|]. right.
      destruct Hpost as [[-> Hnone]|(k & m' & s' & -> & Hm & Hs' & Hex'
                                     & Hmax & Hfirst)].
      * exists 0%nat, m, s. rewrite Nat.add_0_r.
        repeat split; auto.
        -- intros [|k'] m' s' Hm' Hs'; at_position Hm' Hs'; [lra|].
           apply exceeds_Some_false. eapply Hnone; eauto.
        -- intros k' m' s' Hk'. lia.
      * apply exceeds_Some_true in Hex'.
        exists (S k), m', s'. rewrite Nat.add_succ_r.
        repeat split; auto.
        -- eapply exceeds_trans; eauto.
        -- intros [|k'] m'' s'' Hm'' Hs''; at_position Hm'' Hs'';
             [lra|eapply Hmax; eauto].
        -- intros [|k'] m'' s'' Hlt Hm'' Hs''; at_position Hm'' Hs'';
             [lra|eapply Hfirst; eauto; lia].
    + destruct (IH (S i) best bi) as (r & Hr & Hpost); [lia|].
      exists r. split; [exact Hr|].
      destruct Hpost as [[-> Hnone]|(k & m' & s' & -> & Hm & Hs' & Hex'
                                     & Hmax & Hfirst)].
      * left. split; [reflexivity|].
        intros [|k'] m' s' Hm' Hs'; at_position Hm' Hs';
          [exact Hex|eapply Hnone; eauto].
      * pose proof (exceeds_separates _ _ _ Hex Hex') as Hsep.
        right. exists (S k), m', s'. rewrite Nat.add_succ_r.
        repeat split; auto.
        -- intros [|k'] m'' s'' Hm'' Hs''; at_position Hm'' Hs'';
             [lra|eapply Hmax; eauto].
        -- intros [|k'] m'' s'' Hlt Hm'' Hs''; at_position Hm'' Hs'';
             [lra|eapply Hfirst; eauto; lia].
Qed.

End Scan.

Local Abbreviation select :=
  (_weighted_mask_selection height width perimeter).

(** On non-empty parallel sequences the selector returns a position, the
    first one that carries the largest weighted score. *)
Lemma selection_argmax (masks : list mask) (scores : list R)
    (ws : weights) :
  masks <> [] -> length masks = length scores ->
  exists (i : nat) (m : mask) (s : R),
    select masks scores ws = Ok (Z.of_nat i) /\
    masks !! i = Some m /\ scores !! i = Some s /\
    (forall j m' s', masks !! j = Some m' -> scores !! j = Some s' ->
       wscore ws m' s' <= wscore ws m s) /\
    (forall j m' s', (j < i)%nat -> masks !! j = Some m' ->
       scores !! j = Some s' -> wscore ws m' s' < wscore ws m s).
Proof.
  intros Hne Hlen.
  destruct (selection_loop_spec ws scores masks 0 None (-1)%Z)
    as (r & Hr & Hpost); [simpl; lia|].
  destruct Hpost as [[_ Hnone]|(k & m & s & -> & Hm & Hs & _ & Hmax & Hfst)].
  - destruct masks as [|m rest]; [contradiction|].
    destruct scores as [|s srest]; [discriminate|].
    specialize (Hnone 0%nat m s eq_refl eq_refl). discriminate.
  - exists k, m, s. repeat split; auto.
Qed.

(** C2.  On non-empty, equal-length masks and confidences the selector
    returns the least index that attains the maximum weighted score; a
    single candidate gives index 0 whatever its score, and two candidates
    of equal weighted score give index 0. *)
Theorem selection_least_argmax (masks : list mask) (scores : list R)
    (ws : weights) :
  masks <> [] -> length masks = length scores ->
  (exists (i : nat) (m : mask) (s : R),
     select masks scores ws = Ok (Z.of_nat i) /\
     masks !! i = Some m /\ scores !! i = Some s /\
     (forall j m' s', masks !! j = Some m' -> scores !! j = Some s' ->
        wscore ws m' s' <= wscore ws m s) /\
     (forall j m' s', (j < i)%nat -> masks !! j = Some m' ->
        scores !! j = Some s' -> wscore ws m' s' < wscore ws m s)) /\
  (length masks = 1%nat -> select masks scores ws = Ok 0%Z) /\
  (forall m1 m2 s1 s2,
     masks = [m1; m2] -> scores = [s1; s2] ->
     wscore ws m1 s1 = wscore ws m2 s2 ->
     select masks scores ws = Ok 0%Z).
Proof.
  intros Hne Hlen.
  destruct (selection_argmax masks scores ws Hne Hlen)
    as (i & m & s & Hsel & Hm & Hs & Hmax & Hfst).
  split; [|split].
  - exists i, m, s. auto.
  - intros H1. apply lookup_lt_Some in Hm.
    replace i with 0%nat in Hsel by lia. exact Hsel.
  - intros m1 m2 s1 s2 -> -> Heq.
    destruct i as [|[|i]].
    + exact Hsel.
    + simpl in Hm, Hs. simplify_eq.
      specialize (Hfst 0%nat m1 s1 ltac:(lia) eq_refl eq_refl). lra.
    + simpl in Hm. discriminate.
Qed.

(** C9.  With no candidates the selector returns -1 without raising,
    whatever the confidences; -1 lies outside the positions [0, len) of
    every sequence, is never the answer for non-empty parallel inputs,
    and indexing the empty candidate sequence with it raises. *)
Theorem selection_empty (scores : list R) (ws : weights) :
  select [] scores ws = Ok (-1)%Z /\
  (forall (A : Type) (l : list A),
     ~ (0 <= -1 < Z.of_nat (length l))%Z) /\
  (forall masks' scores',
     masks' <> [] -> length masks' = length scores' ->
     select masks' scores' ws <> Ok (-1)%Z) /\
  (forall A : Type, py_index (@nil A) (-1) = IndexError).
Proof.
  repeat split.
  - intros A l. lia.
  - intros masks' scores' Hne Hlen Hsel.
    destruct (selection_argmax masks' scores' ws Hne Hlen)
      as (i & m & s & Hsel' & _).
    rewrite Hsel in Hsel'. injection Hsel' as Hi. lia.
Qed.

End ScoringFacts.

(** ** The refinement round trip *)

Lemma py_index_position {A} (l : list A) (i : nat) (a : A) :
  l !! i = Some a -> py_index l (Z.of_nat i) = Ok a.
Proof.
  intros Hl. unfold py_index.
  destruct (Z.leb_spec 0 (Z.of_nat i)); [|lia].
  rewrite Nat2Z.id. unfold get_item. rewrite Hl. reflexivity.
Qed.

Section RefinementFacts.
Variables height width : Z.
Variable perimeter : mask -> R.
Variables points labels logit pstate : Type.
Variable predict :
  pstate -> request points labels logit -> response logit * pstate.

Local Abbreviation select :=
  (_weighted_mask_selection height width perimeter).
Local Abbreviation refine :=
  (propagate_points height width perimeter predict).

(** C6.  When both predictor calls return non-empty parallel candidate
    arrays, [propagate_points] appends exactly two calls to the
    predictor's call log, the first without a prior and the second with
    [logits[i0]] as [mask_input], where [i0] is the selector's choice
    over round 1, and it returns [masks[i1]] of round 2, where [i1] is
    the selector's choice over round 2. *)
Theorem propagate_points_two_rounds (pts : points) (lbls : labels)
    (w0 : world points labels logit pstate)
    (masks1 : list mask) (scores1 : list R) (logits1 : list logit)
    (p1 : pstate) :
  predict (predictor_state w0) (Request pts lbls None true)
    = (masks1, scores1, logits1, p1) ->
  masks1 <> [] ->
  length scores1 = length masks1 ->
  length logits1 = length masks1 ->
  exists (i0 : nat) (prior : logit),
    select masks1 scores1 default_weights = Ok (Z.of_nat i0) /\
    logits1 !! i0 = Some prior /\
    forall (masks2 : list mask) (scores2 : list R)
           (logits2 : list logit) (p2 : pstate),
      predict p1 (Request pts lbls (Some prior) true)
        = (masks2, scores2, logits2, p2) ->
      masks2 <> [] ->
      length scores2 = length masks2 ->
      exists (i1 : nat) (best : mask),
        select masks2 scores2 default_weights = Ok (Z.of_nat i1) /\
        masks2 !! i1 = Some best /\
        refine pts lbls w0
        = (Ok best,
           World p2
             (calls w0 ++ [Request pts lbls None true;
                           Request pts lbls (Some prior) true])).
Proof.
  intros Hfirst Hne1 Hs1 Hl1.
  destruct (selection_argmax height width perimeter masks1 scores1
              default_weights Hne1 (eq_sym Hs1))
    as (i0 & m0 & s0 & Hsel0 & Hm0 & _).
  destruct (lookup_lt_is_Some_2 logits1 i0) as [prior Hprior].
  { rewrite Hl1. eapply lookup_lt_Some, Hm0. }
  exists i0, prior. repeat split; auto.
  intros masks2 scores2 logits2 p2 Hsecond Hne2 Hs2.
  destruct (selection_argmax height width perimeter masks2 scores2
              default_weights Hne2 (eq_sym Hs2))
    as (i1 & best & s1 & Hsel1 & Hm1 & _).
  exists i1, best. repeat split; auto.
  unfold propagate_points, bind, call_predictor, lift.
  rewrite Hfirst, Hsel0, (py_index_position _ _ _ Hprior).
  cbn [predictor_state calls]. rewrite Hsecond, Hsel1.
  rewrite (py_index_position _ _ _ Hm1).
  rewrite <- app_assoc. reflexivity.
Qed.

End RefinementFacts.

(** ** The mask inventory *)

(** Split a statement about a stored position into the head of the list and
    its tail, and close both from the hypotheses on the tail. *)
Ltac by_position :=
  try lia;
  try (intros [|?]; intros; simplify_eq/=;
       try contradiction; try lia; try (eauto; fail);
       match goal with
       | H : forall q m', (q < _)%nat -> _ |- _ => eapply H; eauto; lia
       end).

(** The scan keeps the incoming candidate when no unselected mask is larger
    than [largest_area]; otherwise it ends on the first unselected mask of
    the largest area, which is then above the incoming [largest_area]. *)
Lemma scan_largest_spec (sel : gset positive) (ms : list mask_record) :
  forall (lm : option mask_record) (la : Z),
    (scan_largest sel ms lm la = (lm, la) /\
     forall q m', ms !! q = Some m' -> (obj_id m' ∉ sel) ->
       (area m' <= la)%Z)
    \/
    (exists p m,
       scan_largest sel ms lm la = (Some m, area m) /\
       ms !! p = Some m /\ (obj_id m ∉ sel) /\ (la < area m)%Z /\
       (forall q m', ms !! q = Some m' -> (obj_id m' ∉ sel) ->
          (area m' <= area m)%Z) /\
       (forall q m', (q < p)%nat -> ms !! q = Some m' -> (obj_id m' ∉ sel) ->
          (area m' < area m)%Z)).
Proof.
  induction ms as [|m rest IH]; intros lm la.
  - left. split; [reflexivity|]. intros q m' Hq.
    rewrite lookup_nil in Hq. discriminate.
  - cbn [scan_largest].
    destruct (decide (obj_id m ∈ sel)) as [Hin|Hnin];
      [|destruct (Z.ltb_spec la (area m)) as [Hbig|Hsmall]].
    + destruct (IH lm la) as [[Heq Hle]|(p & m1 & Heq & Hp & Hn & Hlt
                                         & Hmax & Hfst)].
      * left. split; [exact Heq|]. by_position.
      * right. exists (S p), m1. repeat split; auto; by_position.
    + destruct (IH (Some m) (area m))
        as [[Heq Hle]|(p & m1 & Heq & Hp & Hn & Hlt & Hmax & Hfst)].
      * right. exists 0%nat, m. repeat split; auto; by_position.
      * right. exists (S p), m1. repeat split; auto; by_position.
    + destruct (IH lm la) as [[Heq Hle]|(p & m1 & Heq & Hp & Hn & Hlt
                                         & Hmax & Hfst)].
      * left. split; [exact Heq|]. by_position.
      * right. exists (S p), m1. repeat split; auto; by_position.
Qed.

(** The mask the scan settles on is stored in the inventory, unselected, of
    positive area, of the largest area among the unselected masks, and the
    first such in storage order. *)
Lemma largest_unselected_Some (ms : list mask_record) (sel : gset positive)
    (m : mask_record) :
  largest_unselected ms sel = Some m ->
  exists p,
    ms !! p = Some m /\ (obj_id m ∉ sel) /\ (0 < area m)%Z /\
    (forall q m', ms !! q = Some m' -> (obj_id m' ∉ sel) ->
       (area m' <= area m)%Z) /\
    (forall q m', (q < p)%nat -> ms !! q = Some m' -> (obj_id m' ∉ sel) ->
       (area m' < area m)%Z).
Proof.
  unfold largest_unselected. intros Hm.
  destruct (scan_largest_spec sel ms None 0%Z)
    as [[Heq _]|(p & m1 & Heq & Hp & Hn & Hlt & Hmax & Hfst)];
    rewrite Heq in Hm; simpl in Hm; [discriminate|].
  injection Hm as ->. exists p. auto.
Qed.

Lemma largest_unselected_None (ms : list mask_record) (sel : gset positive) :
  largest_unselected ms sel = None ->
  forall m, m ∈ ms -> (obj_id m ∉ sel) -> (area m <= 0)%Z.
Proof.
  unfold largest_unselected. intros Hnone m Hin Hn.
  apply list_elem_of_lookup in Hin as [q Hq].
  destruct (scan_largest_spec sel ms None 0%Z)
    as [[Heq Hle]|(p & m1 & Heq & _)].
  - eauto.
  - rewrite Heq in Hnone. discriminate.
Qed.

(** A call either leaves the selection state alone or adds the chosen mask
    to it; the latter exactly when a centroid is returned. *)
Lemma offered_Some (ms : list mask_record) (sel : gset positive)
    (m : mask_record) :
  offered ms sel = Some m ->
  largest_unselected ms sel = Some m /\
  snd (get_best_point ms sel) = sel ∪ {[ obj_id m ]}.
Proof.
  unfold offered, get_best_point.
  destruct (largest_unselected ms sel) as [lm|]; [|discriminate].
  destruct (nonzero (segmentation lm)); simpl; [discriminate|].
  intros [= ->]. auto.
Qed.

Lemma get_best_point_grows (ms : list mask_record) (sel : gset positive) :
  sel ⊆ snd (get_best_point ms sel).
Proof.
  unfold get_best_point.
  destruct (largest_unselected ms sel) as [lm|]; [|set_solver].
  destruct (nonzero (segmentation lm)); simpl; set_solver.
Qed.

Lemma selected_after_S (n : nat) (ms : list mask_record) :
  forall sel,
    selected_after (S n) ms sel
    = snd (get_best_point ms (selected_after n ms sel)).
Proof.
  induction n as [|n IH]; intros sel; [reflexivity|].
  change (selected_after (S (S n)) ms sel)
    with (selected_after (S n) ms (snd (get_best_point ms sel))).
  rewrite IH. reflexivity.
Qed.

(** The selection state only grows over a session. *)
Lemma selected_after_mono (ms : list mask_record) (sel : gset positive)
    (j k : nat) :
  (j <= k)%nat -> selected_after j ms sel ⊆ selected_after k ms sel.
Proof.
  induction 1 as [|k Hle IH]; [set_solver|].
  rewrite selected_after_S.
  pose proof (get_best_point_grows ms (selected_after k ms sel)).
  set_solver.
Qed.

(** The [j]-th call of a session runs on the state the first [j] calls
    left behind. *)
Lemma repeated_calls_lookup (ms : list mask_record) (n : nat) :
  forall (j : nat) (sel : gset positive),
    (j < n)%nat ->
    repeated_calls n ms sel !! j
    = Some (offered ms (selected_after j ms sel)).
Proof.
  induction n as [|n IH]; intros j sel Hj; [lia|].
  destruct j as [|j]; [reflexivity|].
  cbn [repeated_calls selected_after]. simpl. apply IH. lia.
Qed.

Lemma repeated_calls_length (ms : list mask_record) (n : nat) :
  forall sel, length (repeated_calls n ms sel) = n.
Proof. induction n as [|n IH]; intros sel; simpl; auto. Qed.

(** What a returned mask looks like from the state its call started in. *)
Lemma repeated_calls_Some (ms : list mask_record) (n j : nat)
    (sel : gset positive) (m : mask_record) :
  repeated_calls n ms sel !! j = Some (Some m) ->
  largest_unselected ms (selected_after j ms sel) = Some m /\
  obj_id m ∈ selected_after (S j) ms sel.
Proof.
  intros Hj.
  assert (j < n)%nat as Hlt.
  { apply lookup_lt_Some in Hj. rewrite repeated_calls_length in Hj. lia. }
  rewrite repeated_calls_lookup in Hj by exact Hlt.
  injection Hj as Hoff. destruct (offered_Some _ _ _ Hoff) as [Hl Hs].
  split; [exact Hl|]. rewrite selected_after_S, Hs.
  apply elem_of_union. right. apply elem_of_singleton. reflexivity.
Qed.

Lemma offered_None_state (ms : list mask_record) (sel : gset positive) :
  offered ms sel = None -> snd (get_best_point ms sel) = sel.
Proof.
  unfold offered, get_best_point.
  destruct (largest_unselected ms sel) as [lm|]; [|reflexivity].
  destruct (nonzero (segmentation lm)); simpl; [reflexivity|discriminate].
Qed.

(** Once a call comes back empty, so does every later one. *)
Lemma repeated_calls_stuck (ms : list mask_record) (sel : gset positive)
    (n : nat) :
  offered ms sel = None -> repeated_calls n ms sel = replicate n None.
Proof.
  intros Hnone. induction n as [|n IH]; [reflexivity|].
  cbn [repeated_calls]. rewrite (offered_None_state _ _ Hnone), Hnone, IH.
  reflexivity.
Qed.

Lemma largest_unselected_all_selected (ms : list mask_record)
    (sel : gset positive) :
  (forall m, m ∈ ms -> obj_id m ∈ sel) ->
  largest_unselected ms sel = None.
Proof.
  intros Hall.
  destruct (largest_unselected ms sel) as [m|] eqn:Hm; [|reflexivity].
  apply largest_unselected_Some in Hm as (p & Hp & Hn & _).
  exfalso. apply Hn, Hall. eapply list_elem_of_lookup_2, Hp.
Qed.


(** Selecting an identity that no stored mask carries changes nothing. *)
Lemma unselected_fresh (ms : list mask_record) (sel : gset positive)
    (i : positive) :
  i ∉ obj_id <$> ms -> unselected ms (sel ∪ {[ i ]}) = unselected ms sel.
Proof.
  unfold unselected. induction ms as [|m rest IH]; intros Hi; [reflexivity|].
  rewrite fmap_cons, not_elem_of_cons in Hi. destruct Hi as [Hne Hrest].
  rewrite !filter_cons, IH by exact Hrest.
  destruct (decide (obj_id m ∉ sel)) as [Hs|Hs].
  - rewrite decide_True; [reflexivity|].
    rewrite not_elem_of_union, not_elem_of_singleton. auto.
  - rewrite decide_False; [reflexivity|].
    rewrite not_elem_of_union. tauto.
Qed.

(** With pairwise-distinct identities, selecting a stored unselected mask
    removes exactly that mask from the unselected ones. *)
Lemma unselected_split (ms : list mask_record) (sel : gset positive)
    (a : mask_record) :
  NoDup (obj_id <$> ms) -> a ∈ ms -> (obj_id a ∉ sel) ->
  unselected ms sel ≡ₚ a :: unselected ms (sel ∪ {[ obj_id a ]}).
Proof.
  intros Hnd Hin Ha. induction ms as [|m rest IH]; [inversion Hin|].
  rewrite fmap_cons, NoDup_cons in Hnd. destruct Hnd as [Hm Hnd].
  apply elem_of_cons in Hin as [->|Hin].
  - unfold unselected. rewrite !filter_cons.
    rewrite decide_True by exact Ha.
    rewrite decide_False.
    + fold (unselected rest (sel ∪ {[ obj_id m ]})).
      rewrite unselected_fresh by exact Hm. reflexivity.
    + rewrite not_elem_of_union, not_elem_of_singleton. tauto.
  - assert (obj_id m ≠ obj_id a) as Hne.
    { intros Heq. apply Hm. rewrite Heq.
      apply list_elem_of_fmap_2, Hin. }
    specialize (IH Hnd Hin). unfold unselected in *.
    rewrite !filter_cons.
    destruct (decide (obj_id m ∉ sel)) as [Hs|Hs].
    + rewrite decide_True.
      * rewrite IH. apply perm_swap.
      * rewrite not_elem_of_union, not_elem_of_singleton. auto.
    + rewrite decide_False; [exact IH|].
      rewrite not_elem_of_union. tauto.
Qed.

Lemma unselected_empty (ms : list mask_record) : unselected ms ∅ = ms.
Proof.
  unfold unselected. induction ms as [|m rest IH]; [reflexivity|].
  rewrite filter_cons, decide_True by apply not_elem_of_empty.
  rewrite IH. reflexivity.
Qed.

(** With pairwise-distinct identities, non-degenerate segmentations and
    positive areas, a session returns every unselected mask exactly once
    and comes back empty from then on. *)
Lemma repeated_calls_complete (ms : list mask_record) :
  NoDup (obj_id <$> ms) ->
  Forall (fun m => nonzero (segmentation m) <> []) ms ->
  Forall (fun m => (0 < area m)%Z) ms ->
  forall (n : nat) (sel : gset positive),
    (length (unselected ms sel) <= n)%nat ->
    exists returned,
      repeated_calls n ms sel
      = (Some <$> returned)
        ++ replicate (n - length (unselected ms sel)) None
      /\ returned ≡ₚ unselected ms sel.
Proof.
  intros Hnd Hseg Hpos.
  induction n as [|n IH]; intros sel Hlen.
  - exists []. destruct (unselected ms sel); [|simpl in Hlen; lia].
    split; reflexivity.
  - destruct (largest_unselected ms sel) as [a|] eqn:Hla.
    + destruct (largest_unselected_Some _ _ _ Hla) as (p & Hp & Ha & _).
      assert (a ∈ ms) as Hin by (eapply list_elem_of_lookup_2, Hp).
      assert (offered ms sel = Some a) as Hoff.
      { unfold offered, get_best_point. rewrite Hla.
        rewrite Forall_forall in Hseg. specialize (Hseg a Hin).
        destruct (nonzero (segmentation a)); [contradiction|].
        reflexivity. }
      destruct (offered_Some _ _ _ Hoff) as [_ Hstate].
      pose proof (unselected_split ms sel a Hnd Hin Ha) as Hsplit.
      pose proof (Permutation_length Hsplit) as Hl. simpl in Hl.
      destruct (IH (sel ∪ {[ obj_id a ]})) as (ret & Htr & Hperm); [lia|].
      exists (a :: ret). split.
      * cbn [repeated_calls]. rewrite Hoff, Hstate, Htr, Hl.
        reflexivity.
      * rewrite Hsplit, Hperm. reflexivity.
    + assert (unselected ms sel = []) as Hnil.
      { apply elem_of_nil_inv. intros m Hm.
        apply list_elem_of_filter in Hm as [Hm Hin].
        pose proof (largest_unselected_None _ _ Hla m Hin Hm).
        rewrite Forall_forall in Hpos. specialize (Hpos m Hin). lia. }
      exists []. rewrite Hnil. split; [|reflexivity].
      rewrite repeated_calls_stuck.
      * reflexivity.
      * unfold offered, get_best_point. rewrite Hla. reflexivity.
Qed.

Lemma offered_no_candidate (ms : list mask_record) (sel : gset positive) :
  largest_unselected ms sel = None -> offered ms sel = None.
Proof.
  intros Hnone. unfold offered, get_best_point. rewrite Hnone. reflexivity.
Qed.

(** Two masks returned by one session, the second one later. *)
Lemma repeated_calls_pair (ms : list mask_record) (n i j : nat)
    (sel : gset positive) (a b : mask_record) :
  (i < j)%nat ->
  repeated_calls n ms sel !! i = Some (Some a) ->
  repeated_calls n ms sel !! j = Some (Some b) ->
  (area b <= area a)%Z /\
  obj_id a <> obj_id b /\
  (area a = area b ->
   exists p q, ms !! p = Some a /\ ms !! q = Some b /\ (p < q)%nat).
Proof.
  intros Hij Ha Hb.
  destruct (repeated_calls_Some _ _ _ _ _ Ha) as [Hla Hsa].
  destruct (repeated_calls_Some _ _ _ _ _ Hb) as [Hlb _].
  destruct (largest_unselected_Some _ _ _ Hla)
    as (p & Hp & _ & _ & Hmax & Hfst).
  destruct (largest_unselected_Some _ _ _ Hlb) as (q & Hq & Hnb & _).
  pose proof (selected_after_mono ms sel i j ltac:(lia)) as Hmono.
  pose proof (selected_after_mono ms sel (S i) j ltac:(lia)) as Hmono'.
  assert (obj_id b ∉ selected_after i ms sel) as Hnb'.
  { intros Hin. apply Hnb, Hmono, Hin. }
  assert (obj_id a <> obj_id b) as Hne.
  { intros Heq. apply Hnb. rewrite <- Heq. apply Hmono', Hsa. }
  repeat split; [eauto|exact Hne|].
  intros Hareas. exists p, q. repeat split; auto.
  destruct (Nat.lt_trichotomy p q) as [Hlt|[Heq|Hgt]]; [exact Hlt| |].
  - subst q. exfalso. apply Hne. congruence.
  - specialize (Hfst q b Hgt Hq Hnb'). lia.
Qed.

(** C7.  For an inventory of pairwise-distinct identities and
    non-degenerate segmentations, successive calls of [get_best_point] on a
    fresh session return masks of non-increasing area, never the same mask
    twice, with equal areas in storage order; once every mask has been
    returned, every later call returns nothing; when all areas are
    positive, the first [length masks] calls return each stored mask once
    and the later ones nothing.  For areas 50, 200, 10 the calls return
    areas 200, 50, 10 and then nothing. *)
Theorem repeated_calls_descending (ms : list mask_record) (n : nat) :
  NoDup (obj_id <$> ms) ->
  Forall (fun m => nonzero (segmentation m) <> []) ms ->
  let returned := repeated_calls n ms ∅ in
  (forall i j a b,
     (i < j)%nat ->
     returned !! i = Some (Some a) -> returned !! j = Some (Some b) ->
     (area b <= area a)%Z /\
     obj_id a <> obj_id b /\
     (area a = area b ->
      exists p q, ms !! p = Some a /\ ms !! q = Some b /\ (p < q)%nat)) /\
  (forall i,
     (forall m, m ∈ ms ->
        exists k, (k < i)%nat /\ returned !! k = Some (Some m)) ->
     forall j, (i <= j < n)%nat -> returned !! j = Some None) /\
  (Forall (fun m => (0 < area m)%Z) ms -> (length ms <= n)%nat ->
   exists each,
     returned = (Some <$> each) ++ replicate (n - length ms) None /\
     each ≡ₚ ms) /\
  map (option_map area) (repeated_calls 4 example_inventory ∅)
  = [Some 200%Z; Some 50%Z; Some 10%Z; None].
Proof.
  intros Hnd Hseg returned. subst returned.
  split; [|split; [|split]].
  - intros i j a b. apply repeated_calls_pair.
  - intros i Hall j [Hij Hjn].
    rewrite repeated_calls_lookup by exact Hjn. f_equal.
    apply offered_no_candidate, largest_unselected_all_selected.
    intros m Hm. destruct (Hall m Hm) as (k & Hk & Hret).
    destruct (repeated_calls_Some _ _ _ _ _ Hret) as [_ Hin].
    eapply (selected_after_mono ms ∅ (S k) j); [lia|exact Hin].
  - intros Hpos Hlen.
    destruct (repeated_calls_complete ms Hnd Hseg Hpos n ∅)
      as (each & Htr & Hperm); rewrite unselected_empty in *; eauto.
  - vm_compute. reflexivity.
Qed.

(** When the scan settles on a mask without true pixels, the call returns
    nothing and leaves the selection state as it was, so every later call
    settles on that same mask and returns nothing as well. *)
Lemma degenerate_mask_blocks_session (ms : list mask_record)
    (sel : gset positive) (m : mask_record) :
  largest_unselected ms sel = Some m ->
  nonzero (segmentation m) = [] ->
  get_best_point ms sel = (None, sel) /\
  forall n,
    chosen_over_calls n ms sel = replicate n (Some m) /\
    repeated_calls n ms sel = replicate n None.
Proof.
  intros Hl Hz.
  assert (get_best_point ms sel = (None, sel)) as Hg.
  { unfold get_best_point. rewrite Hl, Hz. reflexivity. }
  split; [exact Hg|].
  induction n as [|n [IHc IHr]]; [split; reflexivity|].
  cbn [chosen_over_calls repeated_calls]. unfold offered.
  rewrite Hg, Hl. cbn [fst snd]. rewrite IHc, IHr. split; reflexivity.
Qed.

(** C8, on the code.  In the session [degenerate_inventory] the first call
    settles on the mask without true pixels, returns nothing and selects
    nothing; the next calls settle on that same mask again and the sound
    mask stored behind it is never offered. *)
Theorem degenerate_mask_chosen_again :
  largest_unselected degenerate_inventory ∅ = Some degenerate_mask /\
  nonzero (segmentation degenerate_mask) = [] /\
  get_best_point degenerate_inventory ∅ = (None, ∅) /\
  chosen_over_calls 3 degenerate_inventory ∅
  = [Some degenerate_mask; Some degenerate_mask; Some degenerate_mask] /\
  repeated_calls 3 degenerate_inventory ∅ = [None; None; None].
Proof. vm_compute. repeat split; reflexivity. Qed.

(** ** The centroid *)

Lemma sum_Z_bounds (lo hi : Z) (l : list Z) :
  Forall (fun x => (lo <= x <= hi)%Z) l ->
  (lo * Z.of_nat (length l) <= sum_Z l <= hi * Z.of_nat (length l))%Z.
Proof.
  induction 1 as [|x l Hx Hl IH]; simpl; [lia|].
  rewrite Nat2Z.inj_succ. lia.
Qed.

(** The truncated mean of non-negative integers stays between any two
    bounds of the integers themselves. *)
Lemma mean_bounds (lo hi : Z) (l : list Z) :
  (0 <= lo)%Z -> l <> [] ->
  Forall (fun x => (lo <= x <= hi)%Z) l ->
  (lo <= Z.quot (sum_Z l) (Z.of_nat (length l)) <= hi)%Z.
Proof.
  intros Hlo Hne Hall.
  pose proof (sum_Z_bounds lo hi l Hall) as [Hl Hu].
  assert (0 < Z.of_nat (length l))%Z as Hn
    by (destruct l; [contradiction|simpl; lia]).
  rewrite Z.quot_div_nonneg by nia.
  split.
  - apply Z.div_le_lower_bound; lia.
  - apply Z.div_le_upper_bound; lia.
Qed.

Lemma min_of_le (x : Z) (l : list Z) :
  Forall (fun y => (min_of x l <= y)%Z) (x :: l).
Proof.
  induction l as [|z l IH]; [repeat constructor; simpl; lia|].
  inversion IH as [|? ? Hx Hl]; subst. simpl.
  constructor; [lia|constructor; [lia|]].
  eapply Forall_impl; [exact Hl|]. simpl. intros; lia.
Qed.

Lemma max_of_ge (x : Z) (l : list Z) :
  Forall (fun y => (y <= max_of x l)%Z) (x :: l).
Proof.
  induction l as [|z l IH]; [repeat constructor; simpl; lia|].
  inversion IH as [|? ? Hx Hl]; subst. simpl.
  constructor; [lia|constructor; [lia|]].
  eapply Forall_impl; [exact Hl|]. simpl. intros; lia.
Qed.

(** The smallest and the largest entry are entries. *)
Lemma min_of_elem (x : Z) (l : list Z) : min_of x l ∈ x :: l.
Proof.
  induction l as [|z l IH]; simpl; [apply list_elem_of_here|].
  destruct (Z.min_spec z (min_of x l)) as [[_ ->]|[_ ->]].
  - apply list_elem_of_further, list_elem_of_here.
  - apply elem_of_cons in IH as [->|IH];
      [apply list_elem_of_here|do 2 apply list_elem_of_further; exact IH].
Qed.

Lemma max_of_elem (x : Z) (l : list Z) : max_of x l ∈ x :: l.
Proof.
  induction l as [|z l IH]; simpl; [apply list_elem_of_here|].
  destruct (Z.max_spec z (max_of x l)) as [[_ ->]|[_ ->]].
  - apply elem_of_cons in IH as [->|IH];
      [apply list_elem_of_here|do 2 apply list_elem_of_further; exact IH].
  - apply list_elem_of_further, list_elem_of_here.
Qed.

(** Where the true pixels of a row and of an array can lie. *)
Lemma row_nonzero_range (r : Z) (row : list bool) :
  forall c0 p, p ∈ row_nonzero r c0 row ->
    p.1 = r /\ (c0 <= p.2 < c0 + Z.of_nat (length row))%Z.
Proof.
  induction row as [|b bs IH]; intros c0 p Hp; [inversion Hp|].
  cbn [row_nonzero] in Hp. apply elem_of_app in Hp as [Hp|Hp].
  - destruct b; [|inversion Hp].
    apply list_elem_of_singleton in Hp as ->. simpl. lia.
  - destruct (IH _ _ Hp) as [Hr Hc]. split; [exact Hr|].
    cbn [length]. lia.
Qed.

Lemma nonzero_from_range (w : Z) (seg : mask) :
  Forall (fun row => Z.of_nat (length row) = w) seg ->
  forall r0 p, p ∈ nonzero_from r0 seg ->
    (r0 <= p.1 < r0 + Z.of_nat (length seg))%Z /\ (0 <= p.2 < w)%Z.
Proof.
  induction 1 as [|row rows Hrow Hrows IH]; intros r0 p Hp;
    [inversion Hp|].
  cbn [nonzero_from] in Hp. apply elem_of_app in Hp as [Hp|Hp].
  - destruct (row_nonzero_range _ _ _ _ Hp) as [Hr Hc].
    cbn [length]. lia.
  - destruct (IH _ _ Hp) as [Hr Hc]. cbn [length]. lia.
Qed.

Lemma nonzero_from_nonneg (seg : mask) :
  forall r0 p, (0 <= r0)%Z -> p ∈ nonzero_from r0 seg ->
    (0 <= p.1)%Z /\ (0 <= p.2)%Z.
Proof.
  induction seg as [|row rows IH]; intros r0 p Hr0 Hp; [inversion Hp|].
  cbn [nonzero_from] in Hp. apply elem_of_app in Hp as [Hp|Hp].
  - destruct (row_nonzero_range _ _ _ _ Hp) as [Hr Hc]. lia.
  - apply (IH (r0 + 1)%Z); [lia|exact Hp].
Qed.

Lemma centroid_bounds (idx : list (Z * Z)) (rlo rhi clo chi : Z) :
  idx <> [] -> (0 <= rlo)%Z -> (0 <= clo)%Z ->
  Forall (fun p => (rlo <= p.1 <= rhi)%Z /\ (clo <= p.2 <= chi)%Z) idx ->
  (rlo <= (centroid idx).1 <= rhi)%Z /\ (clo <= (centroid idx).2 <= chi)%Z.
Proof.
  intros Hne Hr Hc Hall. unfold centroid. cbn [fst snd].
  assert (forall {B} (f : Z * Z -> B), map f idx <> []) as Hmap
    by (intros B f; destruct idx; [contradiction|discriminate]).
  split.
  - rewrite <- (length_map fst idx).
    apply mean_bounds; auto. apply List.Forall_map.
    eapply Forall_impl; [exact Hall|]. simpl. tauto.
  - rewrite <- (length_map snd idx).
    apply mean_bounds; auto. apply List.Forall_map.
    eapply Forall_impl; [exact Hall|]. simpl. tauto.
Qed.

(** C10.  A centroid returned by [get_best_point] lies in the bounding box
    of the true pixels of the mask the scan settled on; when that mask's
    segmentation is a [height] by [width] array, the centroid is a pixel
    coordinate of the image. *)
Theorem centroid_in_bounding_box (ms : list mask_record)
    (sel sel' : gset positive) (row col : Z) :
  get_best_point ms sel = (Some (row, col), sel') ->
  exists m r0 c0 rest,
    largest_unselected ms sel = Some m /\
    nonzero (segmentation m) = (r0, c0) :: rest /\
    (min_of r0 (map fst rest) <= row <= max_of r0 (map fst rest))%Z /\
    (min_of c0 (map snd rest) <= col <= max_of c0 (map snd rest))%Z /\
    forall height width,
      has_shape (segmentation m) height width ->
      (0 <= row < height)%Z /\ (0 <= col < width)%Z.
Proof.
  unfold get_best_point. intros Hg.
  destruct (largest_unselected ms sel) as [m|]; [|discriminate].
  destruct (nonzero (segmentation m)) as [|[r0 c0] rest] eqn:Hnz;
    [discriminate|].
  assert (centroid ((r0, c0) :: rest) = (row, col)) as Hcen by congruence.
  clear Hg. set (idx := (r0, c0) :: rest) in *.
  assert (idx <> []) as Hne by discriminate.
  assert (forall p, p ∈ idx -> (0 <= p.1)%Z /\ (0 <= p.2)%Z) as Hnonneg.
  { intros p Hp. apply (nonzero_from_nonneg (segmentation m) 0); [lia|].
    fold (nonzero (segmentation m)). rewrite Hnz. exact Hp. }
  assert (row = (centroid idx).1 /\ col = (centroid idx).2) as [-> ->]
    by (rewrite Hcen; auto).
  exists m, r0, c0, rest. split; [reflexivity|]. split; [exact Hnz|].
  assert (((min_of r0 (map fst rest) <= (centroid idx).1
            <= max_of r0 (map fst rest))
           /\ (min_of c0 (map snd rest) <= (centroid idx).2
               <= max_of c0 (map snd rest)))%Z) as [Hrow Hcol].
  { apply centroid_bounds; auto.
    - pose proof (min_of_elem r0 (map fst rest)) as Hin.
      change (r0 :: map fst rest) with (fst <$> idx) in Hin.
      apply list_elem_of_fmap in Hin as (p & -> & Hp).
      apply Hnonneg, Hp.
    - pose proof (min_of_elem c0 (map snd rest)) as Hin.
      change (c0 :: map snd rest) with (snd <$> idx) in Hin.
      apply list_elem_of_fmap in Hin as (p & -> & Hp).
      apply Hnonneg, Hp.
    - pose proof (min_of_le r0 (map fst rest)) as Hr1.
      pose proof (max_of_ge r0 (map fst rest)) as Hr2.
      pose proof (min_of_le c0 (map snd rest)) as Hc1.
      pose proof (max_of_ge c0 (map snd rest)) as Hc2.
      change (r0 :: map fst rest) with (map fst idx) in Hr1, Hr2.
      change (c0 :: map snd rest) with (map snd idx) in Hc1, Hc2.
      rewrite List.Forall_map in Hr1, Hr2, Hc1, Hc2.
      rewrite Forall_forall in *. intros p Hp.
      specialize (Hr1 p Hp). specialize (Hr2 p Hp).
      specialize (Hc1 p Hp). specialize (Hc2 p Hp). lia. }
  split; [exact Hrow|]. split; [exact Hcol|].
  intros height width [Hh Hw].
  assert (((0 <= (centroid idx).1 <= height - 1)
           /\ (0 <= (centroid idx).2 <= width - 1))%Z); [|lia].
  apply centroid_bounds; auto; try lia.
  rewrite Forall_forall. intros p Hp.
  destruct (nonzero_from_range width (segmentation m) Hw 0 p) as [Hr Hc].
  { fold (nonzero (segmentation m)). rewrite Hnz. exact Hp. }
  lia.
Qed.

(** The centroid need not be a true pixel of its mask: for the ring it is
    the hole in the middle. *)
Example centroid_outside_mask :
  get_best_point [MaskRecord 1 8 ring_mask] ∅
  = (Some (1, 1)%Z, ∅ ∪ {[ 1%positive ]})
  /\ ring_mask !! 1%nat ≫= (.!! 1%nat) = Some false.
Proof. split; vm_compute; reflexivity. Qed.

(** ** Pixel counts of the sample masks *)

Lemma row_sum_app (r1 r2 : list bool) :
  row_sum (r1 ++ r2) = (row_sum r1 + row_sum r2)%Z.
Proof. induction r1 as [|b r1 IH]; simpl; [reflexivity|]. lia. Qed.

Lemma row_sum_replicate (n : nat) (b : bool) :
  row_sum (replicate n b) = ((if b then 1 else 0) * Z.of_nat n)%Z.
Proof. induction n as [|n IH]; simpl replicate; simpl row_sum; lia. Qed.

Lemma mask_sum_app (m1 m2 : mask) :
  mask_sum (m1 ++ m2) = (mask_sum m1 + mask_sum m2)%Z.
Proof. induction m1 as [|r m1 IH]; simpl; [reflexivity|]. lia. Qed.

Lemma mask_sum_replicate (n : nat) (r : list bool) :
  mask_sum (replicate n r) = (Z.of_nat n * row_sum r)%Z.
Proof. induction n as [|n IH]; simpl replicate; simpl mask_sum; lia. Qed.

Lemma row_sum_band_row (w k : Z) :
  (0 <= k <= w)%Z -> row_sum (band_row w k) = k.
Proof.
  intros Hk. unfold band_row.
  rewrite row_sum_app, !row_sum_replicate. lia.
Qed.

Lemma length_band_row (w k : Z) :
  (0 <= k <= w)%Z -> Z.of_nat (length (band_row w k)) = w.
Proof.
  intros Hk. unfold band_row.
  rewrite length_app, !length_replicate. lia.
Qed.

Lemma mask_sum_band_mask (h w full k : Z) :
  (0 <= full)%Z -> (0 <= k <= w)%Z ->
  mask_sum (band_mask h w full k) = (full * w + k)%Z.
Proof.
  intros Hfull Hk. unfold band_mask.
  rewrite !mask_sum_app, !mask_sum_replicate.
  change (mask_sum [band_row w k]) with (row_sum (band_row w k) + 0)%Z.
  rewrite !row_sum_band_row by lia.
  rewrite (Z2Nat.id full) by lia. lia.
Qed.

Lemma has_shape_band_mask (h w full k : Z) :
  (0 <= full < h)%Z -> (0 <= k <= w)%Z ->
  has_shape (band_mask h w full k) h w.
Proof.
  intros Hfull Hk. unfold has_shape, band_mask. split.
  - rewrite !length_app, !length_replicate. simpl length. lia.
  - rewrite !Forall_app. repeat split.
    + apply Forall_replicate, length_band_row. lia.
    + constructor; [|constructor]. apply length_band_row. lia.
    + apply Forall_replicate, length_band_row. lia.
Qed.

(** C5, as stated, fails.  On a 2000000 by 2000000 image the mask one pixel
    short of a thousandth of the image has the smaller normalized area and
    the larger size penalty: below the threshold the quartic term adds
    almost 10^-12, more than the one pixel is worth. *)
Lemma size_penalty_not_monotone :
  ~ (forall (height width : Z) (perimeter : mask -> R) (m1 m2 : mask)
            (s1 s2 : R),
       (0 < height * width)%Z ->
       has_shape m1 height width -> has_shape m2 height width ->
       (IZR (mask_sum m1) / IZR (height * width)
        <= IZR (mask_sum m2) / IZR (height * width))%R ->
       ((_compute_mask_metrics height width perimeter m1 s1).1.2
        <= (_compute_mask_metrics height width perimeter m2 s2).1.2)%R).
Proof.
  intros Hclaim.
  specialize (Hclaim 2000000%Z 2000000%Z edge_count
                mask_below_threshold mask_at_threshold 0%R 0%R).
  rewrite !size_penalty_agrees in Hclaim.
  unfold spec_normalized_area, mask_below_threshold, mask_at_threshold
    in Hclaim.
  rewrite !mask_sum_band_mask in Hclaim by lia.
  change (2000000 * 2000000)%Z with 4000000000000%Z in Hclaim.
  change (1999 * 2000000 + 1999999)%Z with 3999999999%Z in Hclaim.
  change (2000 * 2000000 + 0)%Z with 4000000000%Z in Hclaim.
  assert (spec_size_penalty (3999999999 / 4000000000000)
          > spec_size_penalty (4000000000 / 4000000000000))%R as Hgt.
  { unfold spec_size_penalty.
    repeat match goal with
           | |- context [Rlt_dec ?x ?y] => destruct (Rlt_dec x y); try lra
           | |- context [Rgt_dec ?x ?y] => destruct (Rgt_dec x y); try lra
           end. }
  apply Rgt_not_le in Hgt. apply Hgt, Hclaim.
  - lia.
  - apply has_shape_band_mask; lia.
  - apply has_shape_band_mask; lia.
  - lra.
Qed.

(** * Part III: the theorems at sample inputs *)

Lemma edge_count_nonneg (m : mask) : (0 <= edge_count m)%R.
Proof.
  unfold edge_count. apply IZR_le.
  pose proof (mask_sum_nonneg m). lia.
Defined.

(** The weighted score of a 2 by 2 square in a 4 by 4 image. *)
Lemma weighted_score_formula_witness :
  (weighted_score 4 4 edge_count (1, 0.8, 1.4) (rect_mask 4 4 2 2) 0.9
   = 1 * 0.9
     + 0.8 * ln (1 + spec_compactness (mask_sum (rect_mask 4 4 2 2))
                        (edge_count (rect_mask 4 4 2 2)))
     - 1.4 * spec_size_penalty
               (spec_normalized_area (mask_sum (rect_mask 4 4 2 2)) 4 4))%R.
Proof.
  apply (weighted_score_formula 4 4 edge_count (rect_mask 4 4 2 2)
           0.9 1 0.8 1.4)%R.
  apply edge_count_nonneg.
Defined.

(** A single candidate is selected whatever its confidence. *)
Lemma selection_least_argmax_witness :
  _weighted_mask_selection 4 4 edge_count [rect_mask 4 4 2 2] [0.1%R]
    default_weights = Ok 0%Z.
Proof.
  apply (selection_least_argmax 4 4 edge_count [rect_mask 4 4 2 2] [0.1%R]
           default_weights); [discriminate|reflexivity|reflexivity].
Defined.

(** A 2 by 2 square: 4 true pixels, 16 unit edges. *)
Lemma compactness_cases_witness :
  ((_compute_mask_metrics 4 4 edge_count (rect_mask 4 4 2 2) 0.9).1.1
   = Rmin (2 * sqrt (PI * IZR (mask_sum (rect_mask 4 4 2 2)))
           / edge_count (rect_mask 4 4 2 2)) 1)%R.
Proof.
  apply (compactness_cases 4 4 edge_count (rect_mask 4 4 2 2) 0.9).
  - vm_compute. discriminate.
  - apply edge_count_nonneg.
  - apply Rgt_not_eq. unfold edge_count.
    change (4 * mask_sum (rect_mask 4 4 2 2))%Z with 16%Z. lra.
Defined.

Lemma size_penalty_cases_witness :
  (0 <= (_compute_mask_metrics 4 4 edge_count (rect_mask 4 4 2 2) 0.9).1.2)%R.
Proof.
  apply (size_penalty_cases 4 4 edge_count (rect_mask 4 4 2 2) 0.9).
  reflexivity.
Defined.

(** One pixel against four pixels of a 4 by 4 image. *)
Lemma size_penalty_monotone_witness :
  ((_compute_mask_metrics 4 4 edge_count (rect_mask 4 4 1 1) 0.9).1.2
   <= (_compute_mask_metrics 4 4 edge_count (rect_mask 4 4 2 2) 0.7).1.2)%R.
Proof.
  apply (size_penalty_monotone 4 4 edge_count).
  - reflexivity.
  - change (mask_sum (rect_mask 4 4 1 1)) with 1%Z.
    change (mask_sum (rect_mask 4 4 2 2)) with 4%Z.
    change (4 * 4)%Z with 16%Z. lra.
  - right. right. vm_compute. discriminate.
Defined.

(** The stub predictor is called twice and the second call carries one of
    the first call's logits. *)
Lemma propagate_points_two_rounds_witness :
  exists (best : mask) (prior : nat),
    prior ∈ [10%nat; 11%nat] /\
    propagate_points 4 4 edge_count stub_predict tt tt (World 0%nat [])
    = (Ok best,
       World 2%nat [Request tt tt None true;
                    Request tt tt (Some prior) true]).
Proof.
  destruct (propagate_points_two_rounds 4 4 edge_count unit unit nat nat
              stub_predict tt tt (World 0%nat [])
              [rect_mask 4 4 2 2; rect_mask 4 4 4 3] [0.9%R; 0.7%R]
              [10%nat; 11%nat] 1%nat)
    as (i0 & prior & _ & Hprior & Hsecond);
    [reflexivity|discriminate|reflexivity|reflexivity|].
  destruct (Hsecond [rect_mask 4 4 2 2; rect_mask 4 4 4 3] [0.9%R; 0.7%R]
              [10%nat; 11%nat] 2%nat)
    as (i1 & best & _ & _ & Hrun);
    [reflexivity|discriminate|reflexivity|].
  exists best, prior. split; [|exact Hrun].
  eapply list_elem_of_lookup_2, Hprior.
Defined.

Lemma example_inventory_NoDup : NoDup (obj_id <$> example_inventory).
Proof.
  apply (bool_decide_unpack _). vm_compute. exact I.
Defined.

Lemma example_inventory_nondegenerate :
  Forall (fun m => nonzero (segmentation m) <> []) example_inventory.
Proof. repeat constructor; vm_compute; discriminate. Defined.

(** Four calls on the sample inventory return its three masks, each once,
    and then nothing. *)
Lemma repeated_calls_descending_witness :
  exists each,
    repeated_calls 4 example_inventory ∅
    = (Some <$> each) ++ replicate (4 - length example_inventory) None /\
    each ≡ₚ example_inventory.
Proof.
  apply (repeated_calls_descending example_inventory 4
           example_inventory_NoDup example_inventory_nondegenerate).
  - repeat constructor.
  - simpl. lia.
Defined.

(** The first centroid of the sample inventory, at row 4 and column 9. *)
Lemma centroid_in_bounding_box_witness :
  exists m,
    largest_unselected example_inventory ∅ = Some m /\
    forall height width,
      has_shape (segmentation m) height width ->
      (0 <= 4 < height)%Z /\ (0 <= 9 < width)%Z.
Proof.
  destruct (centroid_in_bounding_box example_inventory ∅
              (∅ ∪ {[ 2%positive ]}) 4 9)
    as (m & r0 & c0 & rest & Hm & _ & _ & _ & Hshape).
  - vm_compute. reflexivity.
  - exists m. split; [exact Hm|exact Hshape].
Defined.

(** * Part IV: further properties of the code *)

(** ** The coverage filter *)

Lemma coverage_test (a t : Z) :
  (0 < t)%Z ->
  (IZR a / IZR t < 0.95)%R <-> (100 * a < 95 * t)%Z.
Proof.
  intros Ht. apply IZR_lt in Ht.
  split.
  - intros Hq. apply lt_IZR. rewrite !mult_IZR.
    apply (Rmult_lt_compat_r (IZR t)) in Hq; [|exact Ht].
    unfold Rdiv in Hq. rewrite Rmult_assoc, Rinv_l, Rmult_1_r in Hq by lra.
    lra.
  - intros Hz. apply IZR_lt in Hz. rewrite !mult_IZR in Hz.
    apply (Rmult_lt_reg_r (IZR t)); [exact Ht|].
    unfold Rdiv. rewrite Rmult_assoc, Rinv_l, Rmult_1_r by lra.
    lra.
Qed.

Lemma coverage_loop_filter (t : Z) (ms : list mask_record) :
  (0 < t)%Z ->
  forall acc,
    coverage_loop t 0.95%R ms acc
    = acc ++ filter (fun m => (100 * area m < 95 * t)%Z) ms.
Proof.
  intros Ht. induction ms as [|m rest IH]; intros acc.
  - simpl. rewrite app_nil_r. reflexivity.
  - cbn [coverage_loop]. rewrite filter_cons.
    destruct (Rlt_dec (IZR (area m) / IZR t) 0.95) as [Hq|Hq].
    + rewrite decide_True by (apply coverage_test; assumption).
      rewrite IH, <- app_assoc. reflexivity.
    + rewrite decide_False; [apply IH|].
      intros Hz. apply Hq, coverage_test; assumption.
Qed.

(** X1.  On an image with at least one pixel, [_generate_masks] keeps
    exactly the generated masks whose area is below 95% of the image area,
    that is with [100 * area < 95 * height * width], in the generator's
    order. *)
Theorem generate_masks_filter (height width : Z)
    (generated : list mask_record) :
  (0 < height * width)%Z ->
  _generate_masks height width generated
  = filter (fun m => (100 * area m < 95 * (height * width))%Z) generated.
Proof.
  intros Hpos. unfold _generate_masks.
  rewrite coverage_loop_filter by exact Hpos. reflexivity.
Qed.

(** ** One call of [get_best_point] *)

(** X2.  A call that returns a centroid returns the truncated mean of the
    true pixels of a stored, so far unselected mask of positive area, and
    adds exactly that mask's identity to the selection state; a call that
    returns nothing leaves the selection state as it was. *)
Theorem get_best_point_outcome (ms : list mask_record)
    (sel : gset positive) :
  match get_best_point ms sel with
  | (Some c, sel') =>
      exists m,
        m ∈ ms /\ (obj_id m ∉ sel) /\ (0 < area m)%Z /\
        largest_unselected ms sel = Some m /\
        c = centroid (nonzero (segmentation m)) /\
        sel' = sel ∪ {[ obj_id m ]}
  | (None, sel') => sel' = sel
  end.
Proof.
  unfold get_best_point.
  destruct (largest_unselected ms sel) as [m|] eqn:Hm; [|reflexivity].
  destruct (nonzero (segmentation m)) as [|p idx] eqn:Hnz; [reflexivity|].
  destruct (largest_unselected_Some _ _ _ Hm) as (q & Hq & Hn & Hpos & _).
  exists m. rewrite Hnz. repeat split; auto.
  eapply list_elem_of_lookup_2, Hq.
Qed.

Lemma largest_unselected_zero_area (ms : list mask_record)
    (sel : gset positive) :
  (forall m, m ∈ ms -> (obj_id m ∉ sel) -> (area m <= 0)%Z) ->
  largest_unselected ms sel = None.
Proof.
  intros Hall.
  destruct (largest_unselected ms sel) as [m|] eqn:Hm; [|reflexivity].
  destruct (largest_unselected_Some _ _ _ Hm) as (q & Hq & Hn & Hpos & _).
  apply list_elem_of_lookup_2 in Hq. specialize (Hall m Hq Hn). lia.
Qed.

(** X3.  When every unselected mask has a recorded area of 0 or less, the
    call returns nothing and selects nothing, whatever the segmentations
    hold: the scan starts from [largest_area = 0] and only takes a
    strictly larger area. *)
Theorem get_best_point_skips_zero_area (ms : list mask_record)
    (sel : gset positive) :
  (forall m, m ∈ ms -> (obj_id m ∉ sel) -> (area m <= 0)%Z) ->
  get_best_point ms sel = (None, sel).
Proof.
  intros Hall. unfold get_best_point.
  rewrite (largest_unselected_zero_area ms sel Hall). reflexivity.
Qed.

(** ** Sessions *)

(** Over a session the selection state keeps what it had and only gains
    identities of stored masks. *)
Lemma selected_after_bounds (ms : list mask_record) (n : nat) :
  forall sel : gset positive,
    sel ⊆ selected_after n ms sel /\
    selected_after n ms sel ⊆ sel ∪ list_to_set (obj_id <$> ms).
Proof.
  induction n as [|n IH]; intros sel.
  - split; [reflexivity|]. apply union_subseteq_l.
  - cbn [selected_after]. unfold get_best_point.
    destruct (largest_unselected ms sel) as [m|] eqn:Hm; [|apply IH].
    destruct (nonzero (segmentation m)); [apply IH|]. cbn [snd].
    destruct (largest_unselected_Some _ _ _ Hm) as (q & Hq & _).
    apply list_elem_of_lookup_2 in Hq.
    destruct (IH (sel ∪ {[ obj_id m ]})) as [Hlo Hhi].
    split.
    + etransitivity; [apply union_subseteq_l|exact Hlo].
    + etransitivity; [exact Hhi|].
      apply union_least; [|apply union_subseteq_r].
      apply union_least; [apply union_subseteq_l|].
      apply singleton_subseteq_l, elem_of_union. right.
      apply elem_of_list_to_set, list_elem_of_fmap_2, Hq.
Qed.

(** X4.  After any number of calls the selection state contains what it
    started with and, beyond that, only identities of stored masks. *)
Theorem selection_state_invariant (ms : list mask_record) (n : nat)
    (sel : gset positive) :
  sel ⊆ selected_after n ms sel /\
  forall i, i ∈ selected_after n ms sel ->
    i ∈ sel \/ exists m, m ∈ ms /\ obj_id m = i.
Proof.
  destruct (selected_after_bounds ms n sel) as [Hlo Hhi].
  split; [exact Hlo|]. intros i Hi.
  apply Hhi, elem_of_union in Hi as [Hi|Hi]; [left; exact Hi|right].
  apply elem_of_list_to_set, list_elem_of_fmap in Hi as (m & -> & Hm).
  exists m. auto.
Qed.

Lemma unselected_insert (ms : list mask_record) (sel : gset positive)
    (i : positive) :
  unselected ms (sel ∪ {[ i ]})
  = filter (fun m => obj_id m <> i) (unselected ms sel).
Proof.
  unfold unselected. rewrite list_filter_filter.
  apply list_filter_iff. intros m.
  rewrite not_elem_of_union, not_elem_of_singleton. tauto.
Qed.

Lemma returned_masks_bound (ms : list mask_record) (n : nat) :
  forall sel : gset positive,
    (length (returned_masks (repeated_calls n ms sel))
     <= length (unselected ms sel))%nat.
Proof.
  induction n as [|n IH]; intros sel; [simpl; lia|].
  cbn [repeated_calls]. unfold returned_masks. cbn [omap list_omap].
  fold (returned_masks
          (repeated_calls n ms (snd (get_best_point ms sel)))).
  destruct (offered ms sel) as [a|] eqn:Hoff.
  - destruct (offered_Some _ _ _ Hoff) as [Hl ->].
    destruct (largest_unselected_Some _ _ _ Hl) as (q & Hq & Hn & _).
    specialize (IH (sel ∪ {[ obj_id a ]})).
    rewrite unselected_insert in IH.
    assert (a ∈ unselected ms sel) as Hin.
    { apply list_elem_of_filter. split; [exact Hn|].
      eapply list_elem_of_lookup_2, Hq. }
    pose proof (length_filter_lt (fun m => obj_id m <> obj_id a)
                  (unselected ms sel) a Hin) as Hlt.
    cbn [length]. specialize (Hlt ltac:(tauto)). lia.
  - rewrite (offered_None_state _ _ Hoff).
    rewrite (repeated_calls_stuck _ _ _ Hoff).
    clear. induction n as [|n IH]; simpl; [lia|exact IH].
Qed.

(** X5.  However many calls are made, from whatever selection state, the
    number of centroids returned is at most the number of stored masks not
    yet selected, hence at most the number of stored masks. *)
Theorem centroids_returned_bound (ms : list mask_record) (n : nat)
    (sel : gset positive) :
  (length (returned_masks (repeated_calls n ms sel))
   <= length (unselected ms sel))%nat /\
  (length (returned_masks (repeated_calls n ms sel)) <= length ms)%nat.
Proof.
  pose proof (returned_masks_bound ms n sel) as Hb.
  pose proof (length_filter (fun m => obj_id m ∉ sel) ms) as Hf.
  fold (unselected ms sel) in Hf. split; lia.
Qed.

Lemma selected_after_stuck (ms : list mask_record) (sel : gset positive)
    (j : nat) :
  offered ms (selected_after j ms sel) = None ->
  forall k, (j <= k)%nat ->
    selected_after k ms sel = selected_after j ms sel.
Proof.
  intros Hnone k Hjk. induction Hjk as [|k Hjk IH]; [reflexivity|].
  rewrite selected_after_S, IH. apply offered_None_state, Hnone.
Qed.

(** X6.  Once a call of a session returns nothing, every later call of
    that session returns nothing as well. *)
Theorem empty_result_is_final (ms : list mask_record) (n j : nat)
    (sel : gset positive) :
  repeated_calls n ms sel !! j = Some None ->
  forall k, (j <= k < n)%nat -> repeated_calls n ms sel !! k = Some None.
Proof.
  intros Hj k [Hjk Hkn].
  rewrite repeated_calls_lookup in Hj by lia. injection Hj as Hnone.
  rewrite repeated_calls_lookup by exact Hkn.
  rewrite (selected_after_stuck ms sel j Hnone k Hjk), Hnone. reflexivity.
Qed.

(** ** Pixel counts and the degenerate branch *)

Lemma length_row_nonzero (r : Z) (row : list bool) :
  forall c, Z.of_nat (length (row_nonzero r c row)) = row_sum row.
Proof.
  induction row as [|b bs IH]; intros c; [reflexivity|].
  cbn [row_nonzero row_sum fold_right]. fold (row_sum bs).
  rewrite length_app, Nat2Z.inj_add, IH. destruct b; reflexivity.
Qed.

(** [segmentation.nonzero()] lists as many index pairs as
    [segmentation.sum()] counts true pixels. *)
Lemma length_nonzero (seg : mask) :
  Z.of_nat (length (nonzero seg)) = mask_sum seg.
Proof.
  unfold nonzero. generalize 0%Z as r.
  induction seg as [|row rows IH]; intros r; [reflexivity|].
  cbn [nonzero_from mask_sum fold_right]. fold (mask_sum rows).
  rewrite length_app, Nat2Z.inj_add, length_row_nonzero, IH. reflexivity.
Qed.

(** X7.  When every stored mask records as its area the number of true
    pixels of its segmentation, a call returns nothing exactly when no
    unselected mask has a true pixel left: the branch for a chosen mask
    without valid pixels is never taken. *)
Theorem consistent_inventory_exhaustion (ms : list mask_record)
    (sel : gset positive) :
  Forall (fun m => area m = mask_sum (segmentation m)) ms ->
  (fst (get_best_point ms sel) = None <->
   forall m, m ∈ ms -> (obj_id m ∉ sel) ->
     mask_sum (segmentation m) = 0%Z) /\
  (forall m, largest_unselected ms sel = Some m ->
     nonzero (segmentation m) <> []).
Proof.
  intros Hcons. rewrite Forall_forall in Hcons.
  assert (forall m, largest_unselected ms sel = Some m ->
            nonzero (segmentation m) <> []) as Hlive.
  { intros m Hm Hnil.
    destruct (largest_unselected_Some _ _ _ Hm) as (q & Hq & _ & Hpos & _).
    apply list_elem_of_lookup_2 in Hq.
    rewrite (Hcons m Hq), <- length_nonzero, Hnil in Hpos.
    simpl in Hpos. lia. }
  split; [|exact Hlive]. split.
  - intros Hnone m Hin Hn.
    pose proof (mask_sum_nonneg (segmentation m)) as Hge.
    rewrite <- (Hcons m Hin) in *.
    unfold get_best_point in Hnone.
    destruct (largest_unselected ms sel) as [a|] eqn:Ha.
    + specialize (Hlive a eq_refl).
      destruct (nonzero (segmentation a)); [contradiction|discriminate].
    + pose proof (largest_unselected_None _ _ Ha m Hin Hn). lia.
  - intros Hall. unfold get_best_point.
    rewrite largest_unselected_zero_area; [reflexivity|].
    intros m Hin Hn. rewrite (Hcons m Hin), (Hall m Hin Hn). lia.
Qed.

(** ** A session on the filtered inventory *)

Lemma repeated_calls_returned (ms : list mask_record) (n j : nat)
    (sel : gset positive) (m : mask_record) :
  repeated_calls n ms sel !! j = Some (Some m) ->
  m ∈ ms /\ (obj_id m ∉ sel) /\ (0 < area m)%Z.
Proof.
  intros Hj. destruct (repeated_calls_Some _ _ _ _ _ Hj) as [Hl _].
  destruct (largest_unselected_Some _ _ _ Hl) as (q & Hq & Hn & Hpos & _).
  split; [eapply list_elem_of_lookup_2, Hq|]. split; [|exact Hpos].
  intros Hin. apply Hn.
  apply (selected_after_bounds ms j sel), Hin.
Qed.

(** X8.  In a session started as [__init__] leaves it, with the masks
    [_generate_masks] kept and an empty selection state, every mask a
    centroid is returned for came from the generator, has a positive area
    and covers less than 95% of the image. *)
Theorem session_masks_below_coverage (height width : Z)
    (generated : list mask_record) (n j : nat) (m : mask_record) :
  (0 < height * width)%Z ->
  repeated_calls n (_generate_masks height width generated) ∅ !! j
    = Some (Some m) ->
  m ∈ generated /\ (0 < area m)%Z /\
  (100 * area m < 95 * (height * width))%Z.
Proof.
  intros Hpos Hj.
  destruct (repeated_calls_returned _ _ _ _ _ Hj) as (Hin & _ & Harea).
  unfold _generate_masks in Hin.
  rewrite coverage_loop_filter in Hin by exact Hpos.
  apply list_elem_of_filter in Hin as [Hcov Hin]. auto.
Qed.

(** ** More on the selection scan *)

Section SelectorFacts.
Local Open Scope R_scope.

Variables height width : Z.
Variable perimeter : mask -> R.

Local Abbreviation wscore := (weighted_score height width perimeter).
Local Abbreviation loop := (selection_loop height width perimeter).
Local Abbreviation select :=
  (_weighted_mask_selection height width perimeter).

(** The scan raises as soon as a mask has no confidence at its position. *)
Lemma selection_loop_short (ws : weights) (scores : list R)
    (masks : list mask) :
  forall (i : nat) (best : option R) (best_index : Z),
    (i <= length scores < i + length masks)%nat ->
    loop ws scores i masks best best_index = IndexError.
Proof.
  induction masks as [|m rest IH]; intros i best bi Hlen;
    [simpl in Hlen; lia|].
  cbn [selection_loop]. unfold get_item.
  destruct (scores !! i) as [s|] eqn:Hs; [|reflexivity].
  cbv zeta. simpl in Hlen. apply lookup_lt_Some in Hs.
  destruct (exceeds (wscore ws m s) best); apply IH; lia.
Qed.

(** The scan reads the confidences at the masks' positions and no
    others. *)
Lemma selection_loop_ext (ws : weights) (scores scores' : list R)
    (masks : list mask) :
  forall (i : nat) (best : option R) (best_index : Z),
    (forall k, (k < length masks)%nat ->
       scores !! (i + k)%nat = scores' !! (i + k)%nat) ->
    loop ws scores i masks best best_index
    = loop ws scores' i masks best best_index.
Proof.
  induction masks as [|m rest IH]; intros i best bi Hsame; [reflexivity|].
  cbn [selection_loop]. unfold get_item.
  pose proof (Hsame 0%nat ltac:(simpl; lia)) as Hhead.
  rewrite Nat.add_0_r in Hhead. rewrite <- Hhead.
  destruct (scores !! i) as [s|]; [|reflexivity]. cbv zeta.
  assert (forall k, (k < length rest)%nat ->
            scores !! (S i + k)%nat = scores' !! (S i + k)%nat) as Hrest.
  { intros k Hk. rewrite !Nat.add_succ_comm. apply Hsame. simpl. lia. }
  destruct (exceeds (wscore ws m s) best); apply IH, Hrest.
Qed.

Lemma exceeds_fmap (f : R -> R) (w : R) (best : option R) :
  (forall x y, f x > f y <-> x > y) ->
  exceeds (f w) (f <$> best) = exceeds w best.
Proof.
  intros Hf. destruct best as [b|]; [|reflexivity]. cbn.
  destruct (Rgt_dec (f w) (f b)) as [H1|H1];
    destruct (Rgt_dec w b) as [H2|H2]; try reflexivity; exfalso.
  - apply H2, Hf, H1.
  - apply H1, Hf, H2.
Qed.

(** Two runs of the scan whose weighted scores differ by a strictly
    increasing map take the same decisions. *)
Lemma selection_loop_monotone (f : R -> R) (ws ws' : weights)
    (scores scores' : list R) (masks : list mask) :
  (forall x y, f x > f y <-> x > y) ->
  length scores = length scores' ->
  forall (i : nat) (best : option R) (best_index : Z),
    (forall k m s s', masks !! k = Some m ->
       scores !! (i + k)%nat = Some s -> scores' !! (i + k)%nat = Some s' ->
       wscore ws' m s' = f (wscore ws m s)) ->
    loop ws' scores' i masks (f <$> best) best_index
    = loop ws scores i masks best best_index.
Proof.
  intros Hf Hlen. induction masks as [|m rest IH];
    intros i best bi Hrel; [reflexivity|].
  cbn [selection_loop]. unfold get_item.
  destruct (scores !! i) as [s|] eqn:Hs.
  - destruct (lookup_lt_is_Some_2 scores' i) as [s' Hs'].
    { rewrite <- Hlen. eapply lookup_lt_Some, Hs. }
    rewrite Hs'. cbv zeta.
    rewrite (Hrel 0%nat m s s') by (rewrite ?Nat.add_0_r; auto).
    rewrite exceeds_fmap by exact Hf.
    assert (forall k m0 s0 s0', rest !! k = Some m0 ->
              scores !! (S i + k)%nat = Some s0 ->
              scores' !! (S i + k)%nat = Some s0' ->
              wscore ws' m0 s0' = f (wscore ws m0 s0)) as Hrest.
    { intros k m0 s0 s0' Hm0 Hs0 Hs0'.
      apply (Hrel (S k)); [exact Hm0| |];
        rewrite Nat.add_succ_r; assumption. }
    destruct (exceeds (wscore ws m s) best).
    + apply (IH (S i) (Some (wscore ws m s))), Hrest.
    + apply IH, Hrest.
  - apply lookup_ge_None in Hs. rewrite Hlen in Hs.
    apply lookup_ge_None in Hs. rewrite Hs. reflexivity.
Qed.

(** X9.  The selector raises [IndexError] exactly when there are fewer
    confidences than masks; otherwise it returns an integer from -1 up to
    the last position, and -1 only for an empty mask sequence. *)
Theorem selection_outcome (masks : list mask) (scores : list R)
    (ws : weights) :
  ((length scores < length masks)%nat ->
   select masks scores ws = IndexError) /\
  ((length masks <= length scores)%nat ->
   exists r,
     select masks scores ws = Ok r /\
     (-1 <= r < Z.of_nat (length masks))%Z /\
     (r = (-1)%Z <-> masks = [])).
Proof.
  split.
  - intros Hshort. apply selection_loop_short. simpl. lia.
  - intros Hlen. unfold _weighted_mask_selection.
    rewrite (selection_loop_ext ws scores (take (length masks) scores)).
    2:{ intros k Hk. simpl. rewrite lookup_take_lt by exact Hk.
        reflexivity. }
    destruct masks as [|m rest].
    + exists (-1)%Z. simpl. repeat split; auto; lia.
    + destruct (selection_argmax height width perimeter (m :: rest)
                  (take (length (m :: rest)) scores) ws)
        as (i & mi & si & Hsel & Hmi & _).
      * discriminate.
      * rewrite length_take. lia.
      * exists (Z.of_nat i). split; [exact Hsel|].
        apply lookup_lt_Some in Hmi. split; [lia|].
        split; [lia|discriminate].
Qed.

(** X10.  Confidences stored beyond the last mask are never read: adding
    any to the end of a long enough sequence changes nothing. *)
Theorem selection_ignores_extra_scores (masks : list mask)
    (scores extra : list R) (ws : weights) :
  (length masks <= length scores)%nat ->
  select masks (scores ++ extra) ws = select masks scores ws.
Proof.
  intros Hlen. apply selection_loop_ext.
  intros k Hk. simpl. apply lookup_app_l. lia.
Qed.

Lemma weighted_score_scale (c w_s w_c w_a : R) (m : mask) (s : R) :
  wscore (c * w_s, c * w_c, c * w_a) m s = c * wscore (w_s, w_c, w_a) m s.
Proof.
  unfold weighted_score.
  rewrite (metrics_score height width perimeter m s). ring.
Qed.

Lemma weighted_score_shift (w_s w_c w_a d : R) (m : mask) (s : R) :
  wscore (w_s, w_c, w_a) m (s + d) = wscore (w_s, w_c, w_a) m s + w_s * d.
Proof.
  unfold weighted_score.
  rewrite (metrics_score height width perimeter m s).
  rewrite (metrics_score height width perimeter m (s + d)). ring.
Qed.

(** X11.  Multiplying the three weights by one positive factor does not
    change the selector's answer. *)
Theorem selection_weights_scale (masks : list mask) (scores : list R)
    (c w_s w_c w_a : R) :
  0 < c ->
  select masks scores (c * w_s, c * w_c, c * w_a)
  = select masks scores (w_s, w_c, w_a).
Proof.
  intros Hc. unfold _weighted_mask_selection.
  apply (selection_loop_monotone (fun x => c * x) _ _ scores scores masks)
    with (best := None); [|reflexivity|].
  - intros x y. split; intros H; nra.
  - intros k m s s' _ Hs Hs'. assert (s' = s) as -> by congruence.
    apply weighted_score_scale.
Qed.

(** X12.  Adding one constant to every confidence does not change the
    selector's answer. *)
Theorem selection_confidence_shift (masks : list mask) (scores : list R)
    (ws : weights) (d : R) :
  select masks ((fun s => s + d) <$> scores) ws = select masks scores ws.
Proof.
  destruct ws as [[w_s w_c] w_a]. unfold _weighted_mask_selection.
  apply (selection_loop_monotone (fun x => x + w_s * d) _ _ scores
           ((fun s => s + d) <$> scores) masks) with (best := None).
  - intros x y. split; intros H; lra.
  - rewrite length_fmap. reflexivity.
  - intros k m s s' _ Hs Hs'. rewrite list_lookup_fmap, Hs in Hs'.
    injection Hs' as <-. apply weighted_score_shift.
Qed.

End SelectorFacts.

(** ** More on the metrics *)

Lemma row_sum_le_length (r : list bool) :
  (row_sum r <= Z.of_nat (length r))%Z.
Proof.
  induction r as [|b r IH]; [reflexivity|].
  cbn [row_sum fold_right length]. fold (row_sum r).
  rewrite Nat2Z.inj_succ. destruct b; lia.
Qed.

(** An array holds at most as many true pixels as it has pixels. *)
Lemma mask_sum_le_shape (m : mask) (h w : Z) :
  has_shape m h w -> (mask_sum m <= h * w)%Z.
Proof.
  intros [<- Hrows].
  induction Hrows as [|row rows Hrow Hrows IH]; [simpl; lia|].
  cbn [mask_sum fold_right length]. fold (mask_sum rows).
  pose proof (row_sum_le_length row). rewrite Nat2Z.inj_succ. lia.
Qed.

Lemma ln_monotone (x y : R) : (0 < x)%R -> (x <= y)%R -> (ln x <= ln y)%R.
Proof.
  intros Hx [Hlt | Heq]; [|subst y; lra].
  left. apply ln_increasing; assumption.
Qed.

Section MetricFacts.
Local Open Scope R_scope.

Variables height width : Z.
Variable perimeter : mask -> R.

Local Abbreviation metrics :=
  (_compute_mask_metrics height width perimeter).
Local Abbreviation wscore := (weighted_score height width perimeter).

Lemma compactness_range (m : mask) (s : R) :
  0 <= (metrics m s).1.1 <= 1.
Proof.
  unfold _compute_mask_metrics. cbn [fst].
  split; [|apply Rmin_r]. apply Rmin_glb; [|lra].
  destruct (0 <? mask_sum m)%Z; [|lra].
  destruct (Rgt_dec (perimeter m) 0) as [Hgt|]; [|lra].
  pose proof (sqrt_pos (PI * IZR (mask_sum m))).
  apply Rmult_le_pos; [lra|]. left. apply Rinv_0_lt_compat, Hgt.
Qed.

Lemma normalized_area_range (m : mask) :
  (0 < height * width)%Z -> has_shape m height width ->
  0 <= IZR (mask_sum m) / IZR (height * width) <= 1.
Proof.
  intros Hpos Hshape. split.
  - apply normalized_area_nonneg, Hpos.
  - apply IZR_lt in Hpos as HT.
    apply (Rmult_le_reg_r (IZR (height * width))); [exact HT|].
    unfold Rdiv. rewrite Rmult_assoc, Rinv_l, Rmult_1_r, Rmult_1_l by lra.
    apply IZR_le, mask_sum_le_shape, Hshape.
Qed.

Lemma size_penalty_upper (m : mask) (s : R) :
  (0 < height * width)%Z -> has_shape m height width ->
  0 <= (metrics m s).1.2 <= 1.1296.
Proof.
  intros Hpos Hshape.
  pose proof (normalized_area_range m Hpos Hshape) as Hn.
  unfold _compute_mask_metrics. cbn [fst snd].
  set (n := IZR (mask_sum m) / IZR (height * width)) in *.
  destruct (Rlt_dec n 0.001) as [Hs|Hs];
    destruct (Rgt_dec n 0.5) as [Hl|Hl]; try lra.
  - assert (0 <= n <= 0.001) as H by lra.
    pose proof (pow_incr _ _ 4 H). pose proof (pow_le n 4 (proj1 Hn)). lra.
  - assert (0 <= n - 0.4 <= 0.6) as H by lra.
    pose proof (pow_incr _ _ 4 H).
    assert (0 <= (n - 0.4) ^ 4) by (apply pow_le; lra). lra.
Qed.

(** X13.  On an image with at least one pixel, a mask without true pixels
    has compactness 0 and size penalty 0, so its weighted score is just
    [w_score * confidence]: an empty candidate is neither rewarded nor
    penalised. *)
Theorem empty_mask_score (m : mask) (confidence w_s w_c w_a : R) :
  (0 < height * width)%Z ->
  mask_sum m = 0%Z ->
  metrics m confidence = (0, 0, confidence) /\
  wscore (w_s, w_c, w_a) m confidence = w_s * confidence.
Proof.
  intros Hpos Hzero.
  assert (metrics m confidence = (0, 0, confidence)) as Hm.
  { unfold _compute_mask_metrics. rewrite Hzero. cbn [Z.ltb Z.compare].
    rewrite Rmin_left by lra.
    replace (0 / IZR (height * width)) with 0 by (unfold Rdiv; ring).
    destruct (Rlt_dec 0 0.001); [|lra].
    destruct (Rgt_dec 0 0.5); [lra|].
    repeat f_equal. ring. }
  split; [exact Hm|].
  unfold weighted_score. rewrite Hm.
  replace (1 + 0) with 1 by ring. rewrite ln_1. ring.
Qed.

(** X14.  For a mask of the image's shape, on an image with at least one
    pixel, the normalized area is at most 1 and the size penalty at most
    1.1296, which is what a mask covering the whole image gets. *)
Theorem size_penalty_range (m : mask) (s : R) :
  (0 < height * width)%Z -> has_shape m height width ->
  IZR (mask_sum m) / IZR (height * width) <= 1 /\
  0 <= (metrics m s).1.2 <= 1.1296 /\
  (mask_sum m = (height * width)%Z -> (metrics m s).1.2 = 1.1296).
Proof.
  intros Hpos Hshape.
  split; [apply normalized_area_range; assumption|].
  split; [apply size_penalty_upper; assumption|].
  intros Hfull. unfold _compute_mask_metrics. cbn [fst snd].
  rewrite Hfull. apply IZR_lt in Hpos.
  replace (IZR (height * width) / IZR (height * width)) with 1
    by (field; lra).
  destruct (Rlt_dec 1 0.001); [lra|].
  destruct (Rgt_dec 1 0.5); lra.
Qed.

(** X15.  With non-negative compactness and size weights, the weighted
    score of a mask of the image's shape lies between
    [w_score * confidence - 1.1296 * w_size] and
    [w_score * confidence + ln 2 * w_compact]. *)
Theorem weighted_score_range (m : mask) (confidence w_s w_c w_a : R) :
  (0 < height * width)%Z -> has_shape m height width ->
  0 <= w_c -> 0 <= w_a ->
  w_s * confidence - w_a * 1.1296
  <= wscore (w_s, w_c, w_a) m confidence
  <= w_s * confidence + w_c * ln 2.
Proof.
  intros Hpos Hshape Hc Ha.
  unfold weighted_score.
  rewrite (metrics_score height width perimeter m confidence).
  pose proof (compactness_range m 0) as Hcomp.
  pose proof (size_penalty_upper m 0 Hpos Hshape) as Hsize.
  set (c := (metrics m 0).1.1) in *. set (p := (metrics m 0).1.2) in *.
  assert (0 <= ln (1 + c) <= ln 2) as Hln.
  { split.
    - rewrite <- ln_1. apply ln_monotone; lra.
    - apply ln_monotone; lra. }
  assert (0 <= w_c * ln (1 + c) <= w_c * ln 2) as H1.
  { split; [apply Rmult_le_pos; lra|].
    apply Rmult_le_compat_l; lra. }
  assert (0 <= w_a * p <= w_a * 1.1296) as H2.
  { split; [apply Rmult_le_pos; lra|].
    apply Rmult_le_compat_l; lra. }
  lra.
Qed.

End MetricFacts.

(** ** More on the refinement round trip *)

Lemma get_item_elem {A} (l : list A) (i : nat) (a : A) :
  get_item l i = Ok a -> a ∈ l.
Proof.
  unfold get_item. destruct (l !! i) as [x|] eqn:Hl; [|discriminate].
  intros [= <-]. eapply list_elem_of_lookup_2, Hl.
Qed.

(** Whatever the index, [seq[i]] yields an element of [seq] or raises. *)
Lemma py_index_elem {A} (l : list A) (i : Z) (a : A) :
  py_index l i = Ok a -> a ∈ l.
Proof.
  unfold py_index.
  destruct (0 <=? i)%Z; [apply get_item_elem|].
  destruct (- Z.of_nat (length l) <=? i)%Z; [apply get_item_elem|].
  discriminate.
Qed.

(** [seq[-1]] is the last element. *)
Lemma py_index_last {A} (init : list A) (a : A) :
  py_index (init ++ [a]) (-1) = Ok a.
Proof.
  unfold py_index. cbn [Z.leb Z.compare].
  rewrite length_app. cbn [length].
  destruct (Z.leb_spec (- Z.of_nat (length init + 1)) (-1)); [|lia].
  replace (Z.to_nat (Z.of_nat (length init + 1) + -1)) with (length init)
    by lia.
  unfold get_item. rewrite lookup_app_r by lia.
  rewrite Nat.sub_diag. reflexivity.
Qed.

Section MoreRefinementFacts.
Variables height width : Z.
Variable perimeter : mask -> R.
Variables points labels logit pstate : Type.
Variable predict :
  pstate -> request points labels logit -> response logit * pstate.

Local Abbreviation select :=
  (_weighted_mask_selection height width perimeter).
Local Abbreviation refine :=
  (propagate_points height width perimeter predict).

(** Every way a run can end: after the first call when no prior can be
    taken from it, or after the second call, which carried one of the
    first call's logits; a mask is returned only in the latter case and is
    one of the second call's masks. *)
Lemma propagate_points_cases (pts : points) (lbls : labels)
    (w0 : world points labels logit pstate) :
  let first := Request pts lbls None true in
  let second prior := Request pts lbls (Some prior) true in
  let r1 := predict (predictor_state w0) first in
  (fst (refine pts lbls w0) = IndexError /\
   snd (refine pts lbls w0) = World (snd r1) (calls w0 ++ [first]))
  \/
  (exists prior,
     prior ∈ snd (fst r1) /\
     let r2 := predict (snd r1) (second prior) in
     snd (refine pts lbls w0)
     = World (snd r2) (calls w0 ++ [first; second prior]) /\
     (fst (refine pts lbls w0) = IndexError \/
      exists best,
        fst (refine pts lbls w0) = Ok best /\ best ∈ fst (fst (fst r2)))).
Proof.
  intros first second r1. subst r1.
  unfold propagate_points, bind, call_predictor, lift. fold first.
  destruct (predict (predictor_state w0) first)
    as [[[masks1 scores1] logits1] p1].
  cbn [fst snd].
  destruct (select masks1 scores1 default_weights) as [i0|];
    [|left; split; reflexivity].
  destruct (py_index logits1 i0) as [prior|] eqn:Hprior;
    [|left; split; reflexivity].
  right. exists prior. split; [eapply py_index_elem, Hprior|].
  cbn [predictor_state calls]. fold (second prior).
  destruct (predict p1 (second prior)) as [[[masks2 scores2] logits2] p2].
  cbn [fst snd]. rewrite <- app_assoc. cbn [app].
  destruct (select masks2 scores2 default_weights) as [i1|];
    [|split; [reflexivity|left; reflexivity]].
  destruct (py_index masks2 i1) as [best|] eqn:Hbest;
    (split; [reflexivity|]); [right|left; reflexivity].
  exists best. split; [reflexivity|]. eapply py_index_elem, Hbest.
Qed.

(** X16.  Whatever the predictor answers, a run of [propagate_points]
    calls it once or twice and never more: the first call carries the
    points and labels and no prior, and a second call carries the same
    points and labels and, as prior, one of the logits the first call
    returned.  A run that stops after one call has raised. *)
Theorem propagate_points_calls (pts : points) (lbls : labels)
    (w0 : world points labels logit pstate) :
  let first := Request pts lbls None true in
  let logits1 := snd (fst (predict (predictor_state w0) first)) in
  (calls (snd (refine pts lbls w0)) = calls w0 ++ [first] /\
   fst (refine pts lbls w0) = IndexError)
  \/
  (exists prior,
     prior ∈ logits1 /\
     calls (snd (refine pts lbls w0))
     = calls w0 ++ [first; Request pts lbls (Some prior) true]).
Proof.
  intros first logits1. subst logits1.
  destruct (propagate_points_cases pts lbls w0)
    as [[Hres Hw]|(prior & Hin & Hw & _)].
  - left. rewrite Hw. split; [reflexivity|exact Hres].
  - right. exists prior. split; [exact Hin|]. rewrite Hw. reflexivity.
Qed.

(** X17.  A run that returns a mask has called the predictor exactly
    twice, and the mask is one of the masks the second call returned:
    nothing is made up. *)
Theorem propagate_points_returns_candidate (pts : points) (lbls : labels)
    (w0 w1 : world points labels logit pstate) (best : mask) :
  refine pts lbls w0 = (Ok best, w1) ->
  let first := Request pts lbls None true in
  let r1 := predict (predictor_state w0) first in
  exists prior,
    prior ∈ snd (fst r1) /\
    let r2 := predict (snd r1) (Request pts lbls (Some prior) true) in
    best ∈ fst (fst (fst r2)) /\
    w1 = World (snd r2)
           (calls w0 ++ [first; Request pts lbls (Some prior) true]).
Proof.
  intros Hrun first r1. subst r1.
  destruct (propagate_points_cases pts lbls w0)
    as [[Hres _]|(prior & Hin & Hw & Hres)];
    rewrite Hrun in *; cbn [fst snd] in *; [discriminate|].
  exists prior. split; [exact Hin|].
  destruct Hres as [Hres|(b & Hb & Hbin)]; [discriminate|].
  injection Hb as <-. split; [exact Hbin|exact Hw].
Qed.

(** X18.  When the first call returns no masks, the selector's -1 is
    used as an index all the same: with no logits either the run raises
    [IndexError] after that one call, and with logits present Python's
    negative indexing makes the last logit the prior of a second call. *)
Theorem propagate_points_empty_first_round (pts : points) (lbls : labels)
    (w0 : world points labels logit pstate)
    (scores1 : list R) (logits1 : list logit) (p1 : pstate) :
  predict (predictor_state w0) (Request pts lbls None true)
    = ([], scores1, logits1, p1) ->
  (logits1 = [] ->
   refine pts lbls w0
   = (IndexError, World p1 (calls w0 ++ [Request pts lbls None true]))) /\
  (forall init last,
     logits1 = init ++ [last] ->
     calls (snd (refine pts lbls w0))
     = calls w0 ++ [Request pts lbls None true;
                    Request pts lbls (Some last) true]).
Proof.
  intros Hfirst. split.
  - intros ->. unfold propagate_points, bind, call_predictor, lift.
    rewrite Hfirst. reflexivity.
  - intros init last ->.
    unfold propagate_points, bind, call_predictor, lift.
    rewrite Hfirst.
    change (select [] scores1 default_weights) with (@Ok Z (-1)%Z).
    cbv beta iota zeta. rewrite py_index_last.
    cbv beta iota zeta. cbn [predictor_state calls].
    destruct (predict p1 (Request pts lbls (Some last) true))
      as [[[masks2 scores2] logits2] p2].
    rewrite <- app_assoc. cbn [app].
    destruct (select masks2 scores2 default_weights) as [i1|];
      [|reflexivity].
    destruct (py_index masks2 i1); reflexivity.
Qed.

(** X19.  When the second call returns no masks the run raises
    [IndexError], with both calls made. *)
Theorem propagate_points_empty_second_round (pts : points) (lbls : labels)
    (w0 : world points labels logit pstate)
    (masks1 : list mask) (scores1 scores2 : list R)
    (logits1 logits2 : list logit) (p1 p2 : pstate)
    (i0 : Z) (prior : logit) :
  predict (predictor_state w0) (Request pts lbls None true)
    = (masks1, scores1, logits1, p1) ->
  select masks1 scores1 default_weights = Ok i0 ->
  py_index logits1 i0 = Ok prior ->
  predict p1 (Request pts lbls (Some prior) true)
    = ([], scores2, logits2, p2) ->
  refine pts lbls w0
  = (IndexError,
     World p2 (calls w0 ++ [Request pts lbls None true;
                            Request pts lbls (Some prior) true])).
Proof.
  intros Hfirst Hsel Hprior Hsecond.
  unfold propagate_points, bind, call_predictor, lift.
  rewrite Hfirst, Hsel, Hprior. cbn [predictor_state calls].
  rewrite Hsecond, <- app_assoc. reflexivity.
Qed.

End MoreRefinementFacts.

(** * Part V: the further properties at sample inputs *)

(** The 96% mask is dropped and the 40% mask kept. *)
Lemma generate_masks_filter_witness :
  _generate_masks 100 100 coverage_example = [partial_mask].
Proof.
  etransitivity.
  - apply (generate_masks_filter 100 100 coverage_example). reflexivity.
  - vm_compute. reflexivity.
Defined.

Lemma get_best_point_skips_zero_area_witness :
  get_best_point zero_area_inventory ∅ = (None, ∅)
  /\ nonzero ring_mask <> [].
Proof.
  split; [|vm_compute; discriminate].
  apply (get_best_point_skips_zero_area zero_area_inventory ∅).
  intros m Hin _. apply list_elem_of_singleton in Hin. subst m.
  simpl. lia.
Defined.

(** The fourth call on the sample inventory is empty, and so is the
    fifth. *)
Lemma empty_result_is_final_witness :
  repeated_calls 5 example_inventory ∅ !! 4%nat = Some None.
Proof.
  apply (empty_result_is_final example_inventory 5 3 ∅).
  - vm_compute. reflexivity.
  - lia.
Defined.

Lemma example_inventory_consistent :
  Forall (fun m => area m = mask_sum (segmentation m)) example_inventory.
Proof. repeat constructor. Defined.

(** The first call on the sample inventory settles on the mask of area
    200, which has true pixels. *)
Lemma consistent_inventory_exhaustion_witness :
  largest_unselected example_inventory ∅
  = Some (MaskRecord 2 200 (rect_mask 20 20 10 20))
  /\ nonzero (segmentation (MaskRecord 2 200 (rect_mask 20 20 10 20)))
     <> [].
Proof.
  assert (largest_unselected example_inventory ∅
          = Some (MaskRecord 2 200 (rect_mask 20 20 10 20))) as Hl
    by (vm_compute; reflexivity).
  split; [exact Hl|].
  apply (proj2 (consistent_inventory_exhaustion example_inventory ∅
                  example_inventory_consistent)), Hl.
Defined.

Lemma coverage_example_first_call :
  repeated_calls 1 (_generate_masks 100 100 coverage_example) ∅ !! 0%nat
  = Some (Some partial_mask).
Proof.
  unfold _generate_masks. rewrite coverage_loop_filter by lia.
  vm_compute. reflexivity.
Defined.

Lemma session_masks_below_coverage_witness :
  partial_mask ∈ coverage_example /\ (0 < area partial_mask)%Z /\
  (100 * area partial_mask < 95 * (100 * 100))%Z.
Proof.
  apply (session_masks_below_coverage 100 100 coverage_example 1 0
           partial_mask).
  - reflexivity.
  - apply coverage_example_first_call.
Defined.

Lemma selection_ignores_extra_scores_witness :
  _weighted_mask_selection 4 4 edge_count [rect_mask 4 4 2 2]
    ([0.9%R] ++ [0.1%R; 0.2%R]) default_weights
  = _weighted_mask_selection 4 4 edge_count [rect_mask 4 4 2 2] [0.9%R]
      default_weights.
Proof.
  apply (selection_ignores_extra_scores 4 4 edge_count).
  simpl. lia.
Defined.

(** Doubling the default weights. *)
Lemma selection_weights_scale_witness :
  _weighted_mask_selection 4 4 edge_count
    [rect_mask 4 4 2 2; rect_mask 4 4 4 3] [0.9%R; 0.7%R]
    (2 * 1, 2 * 0.8, 2 * 1.4)%R
  = _weighted_mask_selection 4 4 edge_count
      [rect_mask 4 4 2 2; rect_mask 4 4 4 3] [0.9%R; 0.7%R]
      (1, 0.8, 1.4)%R.
Proof.
  apply (selection_weights_scale 4 4 edge_count). lra.
Defined.

Lemma empty_mask_score_witness :
  (weighted_score 4 4 edge_count (1, 0.8, 1.4) (rect_mask 4 4 0 0) 0.9
   = 1 * 0.9)%R.
Proof.
  apply (empty_mask_score 4 4 edge_count (rect_mask 4 4 0 0) 0.9 1 0.8 1.4)%R;
    reflexivity.
Defined.

Lemma rect_mask_shape : has_shape (rect_mask 4 4 2 2) 4 4.
Proof. split; [reflexivity|repeat constructor]. Defined.

Lemma size_penalty_range_witness :
  (0 <= (_compute_mask_metrics 4 4 edge_count (rect_mask 4 4 2 2) 0.9).1.2
   <= 1.1296)%R.
Proof.
  apply (size_penalty_range 4 4 edge_count (rect_mask 4 4 2 2) 0.9).
  - reflexivity.
  - apply rect_mask_shape.
Defined.

Lemma weighted_score_range_witness :
  (1 * 0.9 - 1.4 * 1.1296
   <= weighted_score 4 4 edge_count (1, 0.8, 1.4) (rect_mask 4 4 2 2) 0.9
   <= 1 * 0.9 + 0.8 * ln 2)%R.
Proof.
  apply (weighted_score_range 4 4 edge_count (rect_mask 4 4 2 2)
           0.9 1 0.8 1.4)%R.
  - reflexivity.
  - apply rect_mask_shape.
  - lra.
  - lra.
Defined.

(** With a single candidate per call the run needs no comparison. *)
Lemma single_predict_run :
  propagate_points 4 4 edge_count single_predict tt tt (World 0%nat [])
  = (Ok (rect_mask 4 4 2 2),
     World 2%nat [Request tt tt None true;
                  Request tt tt (Some 7%nat) true]).
Proof. reflexivity. Defined.

Lemma propagate_points_returns_candidate_witness :
  exists prior : nat,
    prior ∈ [7%nat] /\
    rect_mask 4 4 2 2 ∈ [rect_mask 4 4 2 2].
Proof.
  destruct (propagate_points_returns_candidate 4 4 edge_count
              unit unit nat nat single_predict tt tt (World 0%nat [])
              (World 2%nat [Request tt tt None true;
                            Request tt tt (Some 7%nat) true])
              (rect_mask 4 4 2 2) single_predict_run)
    as (prior & Hprior & Hbest & _).
  exists prior. split; [exact Hprior|exact Hbest].
Defined.

(** No masks but two logits: the second call gets the last logit. *)
Lemma propagate_points_empty_first_round_witness :
  calls (snd (propagate_points 4 4 edge_count no_mask_predict tt tt
                (World 0%nat [])))
  = [Request tt tt None true; Request tt tt (Some 6%nat) true].
Proof.
  apply (proj2 (propagate_points_empty_first_round 4 4 edge_count
                  unit unit nat nat no_mask_predict tt tt (World 0%nat [])
                  [] [5%nat; 6%nat] 1%nat eq_refl)
           [5%nat] 6%nat eq_refl).
Defined.

Lemma propagate_points_empty_second_round_witness :
  propagate_points 4 4 edge_count fading_predict tt tt (World 0%nat [])
  = (IndexError,
     World 2%nat [Request tt tt None true;
                  Request tt tt (Some 7%nat) true]).
Proof.
  apply (propagate_points_empty_second_round 4 4 edge_count unit unit nat
           nat fading_predict tt tt (World 0%nat [])
           [rect_mask 4 4 2 2] [0.9%R] [] [7%nat] [] 1%nat 2%nat 0%Z 7%nat);
    reflexivity.
Defined.
